(** * VersionEqualizer: the synchronisation engine of [FileProcessor]

    A shallow embedding of the four operations of
    [src/version_equalizer.pyw] ([scan_folder], [compare_versions],
    [create_zip], [equalize_versions]) together with the properties the
    specification states about them.

    Conventions of the embedding.
    - A JSON object with fixed keys is a record; a JSON array is a list.
    - A Python [dict] is an insertion-ordered association list ([pydict]):
      assigning to a key that is already present replaces the value and
      keeps the key's position, which is what a dict comprehension does.
    - [FileProcessor.run] turns every exception into [error_signal] and
      every returned value into [finished_signal]; this is the type
      [outcome].
    - A folder is a finite map from names relative to the folder
      ('/'-separated, as [scan_folder] writes them) to nodes; [os.path] is
      the POSIX one, so [name.replace('/', os.sep)] is [name].
    - An archive stores a member under the name it is given and extracts
      it under that name, which is what [zipfile] does with the relative,
      normalised names that [scan_folder] writes.
    - The progress and status signals are advisory and are left out. *)

From Stdlib Require Import Strings.String Strings.Ascii Strings.Byte.
From stdpp Require Import base option list strings gmap.

Open Scope string_scope.
Set Warnings "-clear-no-such-hyp".

(** ** Outcomes of a worker run *)

Inductive exn : Type :=
  | InvalidFolderPath          (* Exception("Invalid folder path") *)
  | BadZipFile                 (* the archive cannot be opened or read *)
  | FileExistsError (path : string) (* [path] exists already *)
  | OSError (path : string)    (* another filesystem error at [path] *)
  | ShutilError (path : string). (* shutil.Error raised by shutil.move *)

Inductive outcome (A : Type) : Type :=
  | Finished (result : A)   (* finished_signal.emit(result) *)
  | Raised (e : exn).       (* error_signal.emit(str(e)) *)
Arguments Finished {A} result.
Arguments Raised {A} e.

Definition obind {A B} (o : outcome A) (k : A → outcome B) : outcome B :=
  match o with
  | Finished a => k a
  | Raised e => Raised e
  end.

(** ** Data model *)

(** One element of a snapshot's ["files"] array. *)
Record file_record := FileRecord { fileName : string; hash : string }.

(** What [scan_folder] returns: [{"files": file_data}]. *)
Record snapshot := Snapshot { files : list file_record }.

(** One element of ["convert_data"]; [status] is the JSON string. *)
Record plan_item := PlanItem { filename : string; status : string }.

(** What [compare_versions] returns: [{"convert_data": convert_data}]. *)
Record comparison := Comparison { convert_data : list plan_item }.

Global Instance file_record_eq_dec : EqDecision file_record.
Proof. solve_decision. Defined.
Global Instance plan_item_eq_dec : EqDecision plan_item.
Proof. solve_decision. Defined.

(** ** Python dictionaries, insertion ordered *)

Module PyDict.

Definition pydict : Type := list (string * string).

(** [d[k] = v] *)
Fixpoint set (d : pydict) (k v : string) : pydict :=
  match d with
  | [] => [(k, v)]
  | (k', v') :: d' =>
      if decide (k' = k) then (k', v) :: d' else (k', v') :: set d' k v
  end.

(** [d.get(k)]: [None] when [k not in d]. *)
Fixpoint get (d : pydict) (k : string) : option string :=
  match d with
  | [] => None
  | (k', v') :: d' => if decide (k' = k) then Some v' else get d' k
  end.

(** [k in d] *)
Definition contains (d : pydict) (k : string) : bool :=
  bool_decide (is_Some (get d k)).

(** [list(d)]: the keys in insertion order. *)
Definition keys (d : pydict) : list string := d.*1.

End PyDict.

(** ** compare_versions *)

(** [{item["fileName"]: item["hash"] for item in data["files"]}] *)
Definition files_dict (data : snapshot) : PyDict.pydict :=
  foldl (λ d item, PyDict.set d (fileName item) (hash item)) [] (files data).

(** The first loop: files that need to be copied. *)
Definition copy_items (to_files from_files : PyDict.pydict) : list plan_item :=
  omap (λ '(name, hash_value),
          if negb (PyDict.contains from_files name)
             || negb (bool_decide (PyDict.get from_files name = Some hash_value))
          then Some (PlanItem name "copy")
          else None) to_files.

(** The second loop: files that need to be moved. *)
Definition move_items (to_files from_files : PyDict.pydict) : list plan_item :=
  omap (λ name,
          if negb (PyDict.contains to_files name)
          then Some (PlanItem name "move")
          else None) (PyDict.keys from_files).

Definition compare_versions (to_version from_version : snapshot)
  : outcome comparison :=
  let to_files := files_dict to_version in
  let from_files := files_dict from_version in
  Finished (Comparison (copy_items to_files from_files
                        ++ move_items to_files from_files)).

(** ** POSIX path functions ([posixpath]) *)

Module Path.

Definition sep : ascii := "/"%char.

Definition is_sep (c : ascii) : bool := bool_decide (c = sep).

Fixpoint drop_while (f : ascii → bool) (l : list ascii) : list ascii :=
  match l with
  | [] => []
  | c :: l' => if f c then drop_while f l' else l
  end.

Fixpoint take_while (f : ascii → bool) (l : list ascii) : list ascii :=
  match l with
  | [] => []
  | c :: l' => if f c then c :: take_while f l' else []
  end.

(** [p[:p.rfind('/') + 1]], as a reversed list of characters. *)
Definition rev_head (p : string) : list ascii :=
  drop_while (λ c, negb (is_sep c)) (rev (list_ascii_of_string p)).

(** [os.path.dirname]: the head, with its trailing separators removed
    unless it consists of separators only. *)
Definition dirname (p : string) : string :=
  let h := rev_head p in
  if forallb is_sep h
  then string_of_list_ascii (rev h)
  else string_of_list_ascii (rev (drop_while is_sep h)).

(** [os.path.basename]: [p[p.rfind('/') + 1:]]. *)
Definition basename (p : string) : string :=
  string_of_list_ascii
    (rev (take_while (λ c, negb (is_sep c)) (rev (list_ascii_of_string p)))).

Definition starts_with_sep (p : string) : bool :=
  match p with
  | String c _ => is_sep c
  | EmptyString => false
  end.

Definition ends_with_sep (p : string) : bool :=
  match rev (list_ascii_of_string p) with
  | c :: _ => is_sep c
  | [] => false
  end.

(** [os.path.join(a, b)] *)
Definition join (a b : string) : string :=
  if starts_with_sep b then b
  else if bool_decide (a = "") || ends_with_sep a then a +:+ b
  else a +:+ "/" +:+ b.

(** [Some rest] when [s = pre ++ rest]. *)
Fixpoint strip_prefix (pre s : string) : option string :=
  match pre, s with
  | EmptyString, _ => Some s
  | String a pre', String b s' =>
      if decide (a = b) then strip_prefix pre' s' else None
  | String _ _, EmptyString => None
  end.

End Path.

(** ** Folders *)

(** A node of a folder: a regular file (with its bytes, or [None] when it
    cannot be opened for reading) or a directory. *)
Inductive node : Type :=
  | File (content : option (list byte))
  | Dir.

Global Instance byte_eq_dec : EqDecision byte := Byte.byte_eq_dec.
Global Instance node_eq_dec : EqDecision node.
Proof. solve_decision. Defined.

(** The content of a folder, keyed by the name relative to the folder; the
    folder itself is the name [""]. [os.path.join(folder, name)] is the
    key [name], and [name.replace('/', os.sep)] is [name]. *)
Abbreviation tree := (gmap string node).

Definition path_exists (t : tree) (p : string) : bool :=
  bool_decide (p = "") || bool_decide (is_Some (t !! p)).

Definition isdir (t : tree) (p : string) : bool :=
  bool_decide (p = "") || bool_decide (t !! p = Some Dir).

(** ** A state and exception monad over one folder *)

Definition fsM (A : Type) : Type := tree → outcome A * tree.

Definition ret {A} (a : A) : fsM A := λ t, (Finished a, t).
Definition raise {A} (e : exn) : fsM A := λ t, (Raised e, t).
Definition bind {A B} (m : fsM A) (k : A → fsM B) : fsM B :=
  λ t, match m t with
       | (Finished a, t') => k a t'
       | (Raised e, t') => (Raised e, t')
       end.
Definition gets {A} (f : tree → A) : fsM A := λ t, (Finished (f t), t).

Notation "'let*' x ':=' m 'in' k" := (bind m (λ x, k))
  (at level 10, x binder, m at level 100, k at level 200,
   format "'[v' 'let*'  x  ':='  m  'in'  '/' k ']'").

(** Python's [try: m except FileExistsError: pass]. *)
Definition except_file_exists (m : fsM unit) : fsM unit :=
  λ t, match m t with
       | (Raised (FileExistsError _), t') => (Finished tt, t')
       | r => r
       end.

(** ** Filesystem calls *)

Module Os.

(** [os.mkdir(p)]: the parent must be a directory and [p] must not
    exist. *)
Definition mkdir (p : string) : fsM unit :=
  λ t, if negb (isdir t (Path.dirname p)) then (Raised (OSError p), t)
       else if path_exists t p then (Raised (FileExistsError p), t)
       else (Finished tt, <[p := Dir]> t).

(** [os.makedirs(name, exist_ok=exist_ok)]; the recursion is on the
    head of the name, which is shorter each time. *)
Fixpoint makedirs_rec (fuel : nat) (exist_ok : bool) (name : string)
  : fsM unit :=
  let head := Path.dirname name in
  let tail := Path.basename name in
  let* _ :=
    match fuel with
    | S fuel' =>
        let* head_exists := gets (λ t, path_exists t head) in
        if bool_decide (head ≠ "") && bool_decide (tail ≠ "")
           && negb head_exists
        then except_file_exists (makedirs_rec fuel' exist_ok head)
        else ret tt
    | O => ret tt
    end in
  λ t, match mkdir name t with
       | (Raised e, t') =>
           if negb exist_ok || negb (isdir t' name)
           then (Raised e, t') else (Finished tt, t')
       | r => r
       end.

Definition makedirs (exist_ok : bool) (name : string) : fsM unit :=
  makedirs_rec (String.length name) exist_ok name.

(** [open(p, "wb")] followed by writing [b]. *)
Definition write_file (p : string) (b : list byte) : fsM unit :=
  λ t, if isdir t p || negb (isdir t (Path.dirname p))
       then (Raised (OSError p), t)
       else (Finished tt, <[p := File (Some b)]> t).

(** A name at or below the directory [src], moved below [dst]. *)
Definition rekey (src dst k : string) : string :=
  if decide (k = src) then dst
  else match Path.strip_prefix (src +:+ "/") k with
       | Some rest => dst +:+ "/" +:+ rest
       | None => k
       end.

Definition below (src k : string) : bool :=
  bool_decide (k = src)
  || bool_decide (is_Some (Path.strip_prefix (src +:+ "/") k)).

(** [os.rename(src, dst)]: a file replaces a file; a directory moves
    with everything below it to a name that does not exist. *)
Definition rename (src dst : string) : fsM unit :=
  λ t, if decide (src = dst) then (Finished tt, t)
       else if negb (isdir t (Path.dirname dst))
       then (Raised (OSError dst), t)
       else match t !! src, t !! dst with
            | Some (File c), (None | Some (File _)) =>
                (Finished tt, <[dst := File c]> (delete src t))
            | Some Dir, None =>
                if below src dst then (Raised (OSError dst), t)
                else (Finished tt,
                      list_to_map
                        (prod_map (rekey src dst) id <$> map_to_list t))
            | _, _ => (Raised (OSError dst), t)
            end.

End Os.

Module Shutil.

(** [shutil._basename]: the base name, ignoring trailing separators. *)
Definition _basename (p : string) : string :=
  Path.basename
    (string_of_list_ascii
       (rev (Path.drop_while Path.is_sep (rev (list_ascii_of_string p))))).

(** [shutil.move(src, dst)] for an existing [src]. When [os.rename]
    fails the copying fallback fails as well, except for a missing
    parent of [dst], which [equalize_versions] creates before the call;
    a directory moved below itself is reported by [shutil.Error]. *)
Definition move (src dst : string) : fsM unit :=
  let rename_or_fail real_dst : fsM unit :=
    λ t, match Os.rename src real_dst t with
         | (Raised e, t') =>
             if isdir t src && Os.below src real_dst
             then (Raised (ShutilError real_dst), t') else (Raised e, t')
         | r => r
         end in
  let* dst_is_dir := gets (λ t, isdir t dst) in
  if dst_is_dir then
    if decide (src = dst) then Os.rename src dst
    else
      let real_dst := Path.join dst (_basename src) in
      let* taken := gets (λ t, path_exists t real_dst) in
      if taken then raise (ShutilError real_dst)
      else rename_or_fail real_dst
  else rename_or_fail dst.

End Shutil.

(** ** ZIP archives *)

(** A member of an archive: the bytes of a file, or a directory entry. *)
Inductive zip_member : Type :=
  | ZFile (data : list byte)
  | ZDir.

(** The members of an archive in the order they were written, each under
    its path in the archive: its archive name, without the separator that
    ends the name of a directory entry. *)
Definition archive : Type := list (string * zip_member).

Module Zip.

(** [ZipFile._extract_member]: create the upper directories, then the
    directory or the file. The member is written at its path as it
    stands, which is what [zipfile] does for a canonical path; it drops
    empty, [.] and [..] names from any other, which is not followed
    here. *)
Definition extract_member (m : string * zip_member) : fsM unit :=
  let upperdirs := Path.dirname m.1 in
  let* upper_exists := gets (λ t, path_exists t upperdirs) in
  let* _ := if negb upper_exists then Os.makedirs false upperdirs
            else ret tt in
  match m.2 with
  | ZDir =>
      let* is_dir := gets (λ t, isdir t m.1) in
      if is_dir then ret tt else Os.mkdir m.1
  | ZFile data => Os.write_file m.1 data
  end.

(** [zipf.extractall(folder)] *)
Fixpoint extractall (z : archive) : fsM unit :=
  match z with
  | [] => ret tt
  | m :: z' => let* _ := extract_member m in extractall z'
  end.

(** The loop of [create_zip]: [zipf.write(file_path, item["filename"])]
    for every item whose path exists (a directory gives a directory
    entry), until a file cannot be read. The member is listed under the
    filename as it stands, which is its path in the archive when the
    filename is canonical; [zipf.write] normalises any other
    ([os.path.normpath], leading separators removed), which is not
    followed here. *)
Fixpoint write_all (target : tree) (items : list plan_item)
  : archive * option exn :=
  match items with
  | [] => ([], None)
  | item :: rest =>
      match target !! filename item with
      | None => write_all target rest
      | Some (File None) => ([], Some (OSError (filename item)))
      | Some (File (Some data)) =>
          let '(z, e) := write_all target rest in
          ((filename item, ZFile data) :: z, e)
      | Some Dir =>
          let '(z, e) := write_all target rest in
          ((filename item, ZDir) :: z, e)
      end
  end.

End Zip.

(** ** scan_folder *)

(** A folder as [scan_folder] sees it: what [os.walk] yields, in its order
    (each directory, named relative to the folder, with the names of its
    files), and the nodes that are read. *)
Record folder := Folder {
  walk : list (string * list string);
  content : tree
}.

Section ScanFolder.

(** [hashlib.md5] fed the chunks of a file, then [hexdigest()]. *)
Variable md5_hexdigest : list byte → string.

(** The body of the inner loop: [None] when opening or reading the file
    raised, which the loop catches before it continues. *)
Definition scan_file (t : tree) (root file : string) : option file_record :=
  let relative_path := Path.join root file in
  match t !! relative_path with
  | Some (File (Some data)) =>
      Some (FileRecord relative_path (md5_hexdigest data))
  | _ => None
  end.

Definition scan_files (f : folder) : list file_record :=
  '(root, names) ← walk f; omap (scan_file (content f) root) names.

(** [on_disk] is [None] when [os.path.exists(folder_path)] is false. *)
Definition scan_folder (folder_path : string) (on_disk : option folder)
  : outcome snapshot :=
  match on_disk with
  | Some f =>
      if bool_decide (folder_path = "") then Raised InvalidFolderPath
      else Finished (Snapshot (scan_files f))
  | None => Raised InvalidFolderPath
  end.

End ScanFolder.

(** ** create_zip *)

Record zip_result := ZipResult {
  zip_path : option string;
  message : option string
}.

(** One run of [create_zip]: what it reports, and the archive file it
    left on disk, if any, with its path. *)
Record pack_run := PackRun {
  pack_outcome : outcome zip_result;
  pack_written : option (string * archive)
}.

(** [creatable p] tells whether a file can be created or truncated at
    [p]. *)
Definition create_zip (convert_data : list plan_item) (to_folder : string)
    (target : tree) (creatable : string → bool) : pack_run :=
  let files_to_zip := filter (λ item, status item = "copy") convert_data in
  if bool_decide (files_to_zip = []) then
    PackRun (Finished (ZipResult None (Some "No files to zip"))) None
  else
    let zip_path := Path.join (Path.dirname to_folder) "version_update.zip" in
    if negb (creatable zip_path) then PackRun (Raised (OSError zip_path)) None
    else
      match Zip.write_all target files_to_zip with
      | (z, None) =>
          PackRun (Finished (ZipResult (Some zip_path) None))
                  (Some (zip_path, z))
      | (z, Some e) => PackRun (Raised e) (Some (zip_path, z))
      end.

(** ** equalize_versions *)

Record equalize_result := EqualizeResult { moved_files : list string }.

(** [os.path.join(from_folder, "ExtraFiles_VersionEqualizer")] *)
Definition extra_files_dir : string := "ExtraFiles_VersionEqualizer".

(** The loop over [convert_data]; [moved] is [moved_files] so far. *)
Fixpoint move_extra_files (convert_data : list plan_item)
    (moved : list string) : fsM (list string) :=
  match convert_data with
  | [] => ret moved
  | item :: rest =>
      if bool_decide (status item = "move") then
        let source_path := filename item in
        let* source_exists := gets (λ t, path_exists t source_path) in
        if source_exists then
          let dest_path := Path.join extra_files_dir (filename item) in
          let* _ := Os.makedirs true (Path.dirname dest_path) in
          let* _ := Shutil.move source_path dest_path in
          move_extra_files rest (moved ++ [filename item])
        else move_extra_files rest moved
      else move_extra_files rest moved
  end.

(** [zip] is [None] when [zip_path] is not a readable ZIP file, and
    otherwise holds its members; the archive file is not itself a file
    that the run writes or moves. *)
Definition equalize_versions (convert_data : list plan_item)
    (zip : option archive) : fsM equalize_result :=
  match zip with
  | None => raise BadZipFile
  | Some z =>
      let* _ := Zip.extractall z in
      let* _ := Os.makedirs true extra_files_dir in
      let* moved := move_extra_files convert_data [] in
      ret (EqualizeResult moved)
  end.

(** ** Vocabulary of the specification *)

(** [p] is a path of the snapshot. *)
Definition path_in (s : snapshot) (p : string) : Prop :=
  ∃ h, FileRecord p h ∈ files s.

(** The invariant of a snapshot: no two records share a path. *)
Definition unique_paths (s : snapshot) : Prop :=
  NoDup (fileName <$> files s).

(** [p] is in the target and is absent from the current snapshot or has
    another digest there. *)
Definition copy_wanted (target current : snapshot) (p : string) : Prop :=
  ∃ h, FileRecord p h ∈ files target
       ∧ (¬ path_in current p
          ∨ ∃ h', FileRecord p h' ∈ files current ∧ h' ≠ h).

(** [p] is in the current snapshot and absent from the target. *)
Definition move_wanted (target current : snapshot) (p : string) : Prop :=
  path_in current p ∧ ¬ path_in target p.

(** How many times an entry occurs in a plan. *)
Definition occurrences (e : plan_item) (plan : list plan_item) : nat :=
  length (filter (λ e', e' = e) plan).

(** The digest of the last record of a snapshot with path [p]. *)
Definition last_hash (l : list file_record) (p : string) : option string :=
  hash <$> last (filter (λ r, fileName r = p) l).

(** A file or directory name: not empty, not [.] or [..], without a
    separator. *)
Definition valid_name (n : string) : Prop :=
  n ≠ "" ∧ n ≠ "." ∧ n ≠ ".."
  ∧ Forall (λ c, c ≠ Path.sep) (list_ascii_of_string n).

(** The parent of a folder, as a path: empty (the working directory), the
    root, or a path that does not end with a separator. *)
Definition plain_parent (parent : string) : Prop :=
  parent = "" ∨ parent = "/" ∨ Path.ends_with_sep parent = false.

(** [p] names something below [folder]. *)
Definition inside (folder p : string) : Prop :=
  ∃ rest, rest ≠ "" ∧ Path.starts_with_sep rest = false
          ∧ p = Path.join folder rest.

(** A relative name: not empty and not starting with a separator. *)
Definition relative_name (n : string) : Prop :=
  n ≠ "" ∧ Path.starts_with_sep n = false.

(** The names between the separators of a path. *)
Fixpoint split_sep (cs : list ascii) : list (list ascii) :=
  match cs with
  | [] => [[]]
  | c :: cs' =>
      if Path.is_sep c then [] :: split_sep cs'
      else match split_sep cs' with
           | w :: ws => (c :: w) :: ws
           | [] => [[c]]
           end
  end.

(** A name of a canonical path: not empty, not [.] or [..], without a
    NUL character. *)
Definition is_component (w : list ascii) : bool :=
  negb (bool_decide (w = []))
  && negb (bool_decide (w = ["."%char]))
  && negb (bool_decide (w = ["."%char; "."%char]))
  && forallb (λ c, negb (bool_decide (c = Ascii.zero))) w.

(** A canonical relative path, as [scan_folder] records them: names
    joined by single separators, without a leading or trailing separator
    and without [.] or [..]. For such a path [os.path.normpath] is the
    identity, so [zipf.write] stores it as it is, [extractall] extracts it
    under the same name, and below the folder it names the node with that
    key. Other spellings ([./a.txt], [../a.txt], [a//b]) are rewritten by
    [zipfile] and resolved by the operating system, which the folder model
    does not follow. *)
Definition canonical (n : string) : Prop :=
  forallb is_component (split_sep (list_ascii_of_string n)) = true.

(** A path that [create_zip] can package from the target folder: a
    canonical path that is not named like the archive. [create_zip]
    creates the archive before it reads the files, and for some spellings
    of the target folder the archive lies inside it. *)
Definition packable (p : string) : Prop :=
  canonical p ∧ Path.basename p ≠ "version_update.zip".

(** The paths that [equalize_versions] resolves, those of the "move"
    entries and of the members of the archive, are canonical. *)
Definition canonical_names (plan : list plan_item) (z : archive) : Prop :=
  (∀ q, PlanItem q "move" ∈ plan → canonical q)
  ∧ (∀ m, m ∈ z → canonical m.1).

(** The name under which a member is stored in the archive file.
    [ZipInfo.from_file] appends a separator to the name of a directory
    ([arcname += '/']), by which [is_dir()] recognises the entry, and
    [_extract_member] drops it again; the pairs of an [archive] hold the
    path without it. *)
Definition stored_name (m : string * zip_member) : string :=
  match m.2 with
  | ZFile _ => m.1
  | ZDir => m.1 +:+ "/"
  end.

(** The name under which [zipf.write] stores the node of [target] at the
    canonical path [p]. *)
Definition stored_as (target : tree) (p : string) : string :=
  match target !! p with
  | Some Dir => p +:+ "/"
  | _ => p
  end.

(** [k] is a proper ancestor of [n]: [n] is [k] followed by a separator
    and more. *)
Definition ancestor (k n : string) : Prop :=
  ∃ s, n = k +:+ s ∧ Path.starts_with_sep s = true.

(** [k] is the quarantine directory or a name below it. *)
Definition in_quarantine (k : string) : Prop :=
  k = extra_files_dir ∨ ancestor extra_files_dir k.

(** From [t] to [t'] nothing changed except that directories were made
    at free names that are [name] or ancestors of it. *)
Definition grows (name : string) (t t' : tree) : Prop :=
  ∀ k, t' !! k = t !! k
       ∨ (t !! k = None ∧ t' !! k = Some Dir ∧ (k = name ∨ ancestor k name)).

(** The plan and the archive keep clear of the quarantine directory and
    of each other, and the "move" entries name files, as they do when they
    come from scans of two folders without a quarantine directory: every
    path of a "move" entry is a relative name outside the quarantine
    directory, is not a directory of the folder and has no directory as
    its counterpart in quarantine; none is an ancestor of another or of a
    member of the archive, and none is a member; every member of the
    archive has a relative name outside the quarantine directory. *)
Definition clear_of_quarantine (plan : list plan_item) (z : archive)
    (t : tree) : Prop :=
  (∀ q, PlanItem q "move" ∈ plan →
        relative_name q ∧ ¬ in_quarantine q
        ∧ t !! q ≠ Some Dir
        ∧ t !! Path.join extra_files_dir q ≠ Some Dir)
  ∧ (∀ q q', PlanItem q "move" ∈ plan → PlanItem q' "move" ∈ plan →
             ¬ ancestor q q')
  ∧ (∀ m, m ∈ z → relative_name m.1 ∧ ¬ in_quarantine m.1)
  ∧ (∀ q m, PlanItem q "move" ∈ plan → m ∈ z →
            m.1 ≠ q ∧ ¬ ancestor q m.1).

(** The member [m] is in the folder as [extractall] leaves it: its
    upper directory exists, and its name holds its bytes, or is a
    directory for a directory entry. *)
Definition extracted (t : tree) (m : string * zip_member) : Prop :=
  path_exists t (Path.dirname m.1) = true
  ∧ match m.2 with
    | ZFile data =>
        isdir t (Path.dirname m.1) = true
        ∧ t !! m.1 = Some (File (Some data))
    | ZDir => t !! m.1 = Some Dir
    end.

(** ** Signals *)

(** What a worker emits besides its result: [status_updated] with its
    text, and [progress_updated], of which the two operands [done] and
    [total] of [int((done / total) * 100)] are kept (the quotient is a
    floating point number). *)
Inductive signal : Type :=
  | Progress (done total : nat)
  | Status (text : string).

(** The texts of the [status_updated] signals, and the operands of the
    [progress_updated] signals, in the order of emission. *)
Definition status_texts (signals : list signal) : list string :=
  omap (λ s, match s with Status text => Some text | _ => None end) signals.

Definition progress_steps (signals : list signal) : list (nat * nat) :=
  omap (λ s, match s with Progress k n => Some (k, n) | _ => None end)
       signals.

(** The files [os.walk] lists, in the order in which the two loops of
    [scan_folder] visit them; [total_files] is their number. *)
Definition listed (f : folder) : list (string * string) :=
  '(root, names) ← walk f; (λ file, (root, file)) <$> names.

Section ScanSignals.

Variable md5_hexdigest : list byte → string.

(** The signals of the loops of [scan_folder]: after each file that was
    hashed, the progress and ["Processing: ..."]; nothing for a file that
    raised. *)
Fixpoint scan_emits (t : tree) (total : nat) (files : list (string * string))
    (processed : nat) : list signal :=
  match files with
  | [] => []
  | (root, file) :: rest =>
      match scan_file md5_hexdigest t root file with
      | Some r =>
          Progress (S processed) total
          :: Status ("Processing: " +:+ fileName r)
          :: scan_emits t total rest (S processed)
      | None => scan_emits t total rest processed
      end
  end.

(** All signals of [scan_folder]; none when the folder path is refused. *)
Definition scan_signals (folder_path : string) (on_disk : option folder)
  : list signal :=
  match on_disk with
  | Some f =>
      if bool_decide (folder_path = "") then []
      else Status "Scanning files..."
           :: scan_emits (content f) (length (listed f)) (listed f) 0
  | None => []
  end.

End ScanSignals.

(** The signals of the loop of [create_zip]: for every item, whether its
    file exists or not, the progress and ["Adding to ZIP: ..."], until
    [zipf.write] raises. *)
Fixpoint zip_emits (target : tree) (items : list plan_item) (i n : nat)
  : list signal :=
  match items with
  | [] => []
  | item :: rest =>
      match target !! filename item with
      | Some (File None) => []
      | _ =>
          Progress (S i) n
          :: Status ("Adding to ZIP: " +:+ filename item)
          :: zip_emits target rest (S i) n
      end
  end.

Definition create_zip_signals (convert_data : list plan_item)
    (to_folder : string) (target : tree) (creatable : string → bool)
  : list signal :=
  let files_to_zip := filter (λ item, status item = "copy") convert_data in
  if bool_decide (files_to_zip = []) then []
  else
    let zip_path := Path.join (Path.dirname to_folder) "version_update.zip" in
    if negb (creatable zip_path) then []
    else zip_emits target files_to_zip 0 (length files_to_zip).

(** ** What the pages show of a result *)

Module Page.

(** [CheckerPage.on_comparison_finished]: the two counts of its
    message. *)
Definition copy_count (convert_data : list plan_item) : nat :=
  length (filter (λ item, status item = "copy") convert_data).

Definition move_count (convert_data : list plan_item) : nat :=
  length (filter (λ item, status item = "move") convert_data).

(** [MatchPage.on_zip_created]: the dialog it opens. *)
Inductive zip_dialog : Type :=
  | ZipCreated (location : string)
  | NoFilesToPackage (text : string).

Definition on_zip_created (result : zip_result) : zip_dialog :=
  let text := default "No files need to be packaged." (message result) in
  match zip_path result with
  | Some location =>
      if bool_decide (location = "") then NoFilesToPackage text
      else ZipCreated location
  | None => NoFilesToPackage text
  end.

(** [MatchPage.on_equalization_finished]: the dialog it opens, with the
    number of moved files. *)
Inductive equalize_dialog : Type :=
  | ExtraFilesMoved (n : nat)
  | NoExtraFiles.

Definition on_equalization_finished (result : equalize_result)
  : equalize_dialog :=
  match moved_files result with
  | [] => NoExtraFiles
  | moved => ExtraFilesMoved (length moved)
  end.

End Page.

(** ** Folders as the four steps meet them *)



(** ** Concrete snapshots, folders and plans *)

Module Ex.

Definition bytes_of (s : string) : list byte := list_byte_of_string s.

(** The scenario of the specification: the target has [a.txt] with
    digest D1, the current folder has [a.txt] with digest D2 and
    [b.txt] with digest D3. *)
Definition target_snapshot : snapshot :=
  Snapshot [FileRecord "a.txt" "D1"].
Definition current_snapshot : snapshot :=
  Snapshot [FileRecord "a.txt" "D2"; FileRecord "b.txt" "D3"].

(** A snapshot with two records for one path. *)
Definition duplicate_snapshot : snapshot :=
  Snapshot [FileRecord "a.txt" "D1"; FileRecord "a.txt" "D2"].

(** Stands for MD5 where a concrete digest is needed. *)
Definition toy_digest (data : list byte) : string :=
  "md5:" +:+ string_of_list_byte data.

(** A folder with a file that cannot be read. *)
Definition folder_with_locked_file : folder :=
  Folder [("", ["a.txt"; "locked.bin"]); ("sub", ["c.txt"])]
         (list_to_map [("a.txt", File (Some (bytes_of "A")));
                       ("locked.bin", File None);
                       ("sub", Dir);
                       ("sub/c.txt", File (Some (bytes_of "C")))]).

(** The target folder of the scenario and its plan. *)
Definition target_tree : tree :=
  list_to_map [("a.txt", File (Some (bytes_of "new a")))].
Definition scenario_plan : list plan_item :=
  [PlanItem "a.txt" "copy"; PlanItem "b.txt" "move"].
Definition scenario_archive : archive :=
  [("a.txt", ZFile (bytes_of "new a"))].
Definition always (p : string) : bool := true.

(** The current folder of the scenario. *)
Definition current_tree : tree :=
  list_to_map [("a.txt", File (Some (bytes_of "old a")));
               ("b.txt", File (Some (bytes_of "old b")))].



(** A current folder that was equalized before: it has [b.txt] again,
    and an older [b.txt] in its quarantine directory. The target has
    only [a.txt]. *)
Definition rerun_tree : tree :=
  list_to_map
    [("b.txt", File (Some (bytes_of "second b")));
     ("ExtraFiles_VersionEqualizer", Dir);
     ("ExtraFiles_VersionEqualizer/b.txt", File (Some (bytes_of "first b")))].
Definition rerun_folder : folder :=
  Folder [("", ["b.txt"]); ("ExtraFiles_VersionEqualizer", ["b.txt"])]
         rerun_tree.
Definition target_folder : folder := Folder [("", ["a.txt"])] target_tree.
Definition rerun_plan : list plan_item :=
  [PlanItem "a.txt" "copy"; PlanItem "b.txt" "move";
   PlanItem "ExtraFiles_VersionEqualizer/b.txt" "move"].

(** A target folder that has a file under the name of the quarantine
    directory, and a current folder with [b.txt] only. *)
Definition nested_target : folder :=
  Folder [("", []); ("ExtraFiles_VersionEqualizer", ["b.txt"])]
         (list_to_map
            [("ExtraFiles_VersionEqualizer", Dir);
             ("ExtraFiles_VersionEqualizer/b.txt",
              File (Some (bytes_of "target b")))]).
Definition nested_current : folder :=
  Folder [("", ["b.txt"])]
         (list_to_map [("b.txt", File (Some (bytes_of "current b")))]).
Definition nested_plan : list plan_item :=
  [PlanItem "ExtraFiles_VersionEqualizer/b.txt" "copy";
   PlanItem "b.txt" "move"].
Definition nested_archive : archive :=
  [("ExtraFiles_VersionEqualizer/b.txt", ZFile (bytes_of "target b"))].

End Ex.

(** ** Python dictionaries: lookup after assignment, keys *)

Module PyDictFacts.
Import PyDict.

Lemma get_set d k v k' :
  get (set d k v) k' = if decide (k = k') then Some v else get d k'.
Proof.
  induction d as [|[k0 v0] d IH]; simpl.
  - repeat case_decide; congruence.
  - destruct (decide (k0 = k)) as [->|Hne]; simpl.
    + repeat case_decide; congruence.
    + rewrite IH. repeat case_decide; congruence.
Qed.

Lemma elem_of_keys_set d k v k' :
  k' ∈ keys (set d k v) ↔ k' = k ∨ k' ∈ keys d.
Proof.
  unfold keys. induction d as [|[k0 v0] d IH]; simpl.
  - rewrite list_elem_of_singleton, elem_of_nil. naive_solver.
  - case_decide; subst; simpl; rewrite !elem_of_cons; naive_solver.
Qed.

Lemma NoDup_keys_set d k v : NoDup (keys d) → NoDup (keys (set d k v)).
Proof.
  unfold keys. induction d as [|[k0 v0] d IH]; simpl; intros Hd.
  - apply NoDup_singleton.
  - apply NoDup_cons in Hd as [Hk0 Hd].
    case_decide; simpl; apply NoDup_cons; split; auto.
    intros Hin. apply (elem_of_keys_set d k v k0) in Hin as [->|Hin]; done.
Qed.

Lemma get_None d k : get d k = None ↔ k ∉ keys d.
Proof.
  unfold keys. induction d as [|[k0 v0] d IH]; simpl.
  - split; [intros _; apply not_elem_of_nil|done].
  - rewrite not_elem_of_cons. case_decide; subst; naive_solver.
Qed.

Lemma contains_keys d k : contains d k = true ↔ k ∈ keys d.
Proof.
  unfold contains. rewrite bool_decide_eq_true.
  destruct (get d k) eqn:Hg.
  - split; [|by eauto]. intros _.
    destruct (decide (k ∈ keys d)) as [|Hn]; [done|].
    apply get_None in Hn. congruence.
  - split; [by intros [? ?]|]. intros Hin. by apply get_None in Hg.
Qed.

(** In a dictionary the entry of a key is the one [get] finds. *)
Lemma get_elem_of d k v : NoDup (keys d) → (k, v) ∈ d → get d k = Some v.
Proof.
  unfold keys. induction d as [|[k0 v0] d IH]; simpl; intros Hd Hin.
  - by apply elem_of_nil in Hin.
  - apply NoDup_cons in Hd as [Hk0 Hd].
    apply elem_of_cons in Hin as [[= <- <-]|Hin].
    + by rewrite decide_True.
    + rewrite decide_False; [by apply IH|].
      intros ->. apply Hk0. by apply (list_elem_of_fmap_2 fst _ (k, v)).
Qed.

Lemma elem_of_get d k v : get d k = Some v → (k, v) ∈ d.
Proof.
  induction d as [|[k0 v0] d IH]; simpl; [done|].
  case_decide; subst.
  - intros [= ->]. left.
  - intros Hg. right. by apply IH.
Qed.

End PyDictFacts.

(** ** The dictionaries of [compare_versions] *)

Module DictOfFiles.
Import PyDict PyDictFacts.

Local Abbreviation build :=
  (foldl (λ d item, set d (fileName item) (hash item))).

Lemma NoDup_keys_build acc l : NoDup (keys acc) → NoDup (keys (build acc l)).
Proof.
  revert acc. induction l as [|r l IH]; intros acc Hacc; simpl; [done|].
  apply IH. by apply NoDup_keys_set.
Qed.

Lemma last_hash_cons r l p :
  last_hash (r :: l) p =
    match last_hash l p with
    | Some h => Some h
    | None => if decide (fileName r = p) then Some (hash r) else None
    end.
Proof.
  unfold last_hash. rewrite filter_cons.
  destruct (decide (fileName r = p)) as [Hr|Hr]; [|by destruct (last _)].
  rewrite last_cons. by destruct (last _).
Qed.

Lemma get_build acc l p :
  get (build acc l) p =
    match last_hash l p with Some h => Some h | None => get acc p end.
Proof.
  revert acc. induction l as [|r l IH]; intros acc; simpl; [done|].
  rewrite IH, last_hash_cons, get_set.
  destruct (last_hash l p); [done|]. by case_decide.
Qed.

Lemma NoDup_keys_files_dict s : NoDup (keys (files_dict s)).
Proof. unfold files_dict. apply NoDup_keys_build. constructor. Qed.

(** A duplicated path keeps the digest of its last record. *)
Lemma get_files_dict s p : get (files_dict s) p = last_hash (files s) p.
Proof. unfold files_dict. rewrite get_build. by destruct (last_hash _ _). Qed.

Lemma last_hash_elem_of l p h : last_hash l p = Some h → FileRecord p h ∈ l.
Proof.
  unfold last_hash. intros Hl.
  apply fmap_Some in Hl as ([p' h'] & Hlast & ->).
  apply last_Some_elem_of, list_elem_of_filter in Hlast as [Hp Hin].
  simpl in Hp. by subst.
Qed.

Lemma last_hash_None l p : last_hash l p = None ↔ p ∉ fileName <$> l.
Proof.
  unfold last_hash. rewrite fmap_None, last_None. split.
  - intros Hf Hin. apply list_elem_of_fmap in Hin as (r & -> & Hr).
    assert (r ∈ filter (λ r', fileName r' = fileName r) l) as Hin
      by (by apply list_elem_of_filter).
    rewrite Hf in Hin. by apply elem_of_nil in Hin.
  - intros Hnot. destruct (filter _ l) as [|r l'] eqn:Hf; [done|].
    assert (r ∈ filter (λ r', fileName r' = p) l) as Hin
      by (rewrite Hf; left).
    apply list_elem_of_filter in Hin as [<- Hin].
    exfalso. apply Hnot. by apply list_elem_of_fmap_2.
Qed.

Lemma last_hash_unique l p h :
  NoDup (fileName <$> l) → FileRecord p h ∈ l → last_hash l p = Some h.
Proof.
  induction l as [|r l IH]; simpl; intros Hnd Hin.
  - by apply elem_of_nil in Hin.
  - apply NoDup_cons in Hnd as [Hr Hnd]. rewrite last_hash_cons.
    apply elem_of_cons in Hin as [<-|Hin].
    + simpl in Hr. apply last_hash_None in Hr. rewrite Hr. simpl.
      by rewrite decide_True.
    + by rewrite (IH Hnd Hin).
Qed.

Lemma path_in_last_hash s p : path_in s p ↔ is_Some (last_hash (files s) p).
Proof.
  split.
  - intros [h Hin]. rewrite <-not_eq_None_Some, last_hash_None.
    intros Hnot. apply Hnot.
    by apply (list_elem_of_fmap_2 fileName _ (FileRecord p h)).
  - intros [h Hl]. exists h. by apply last_hash_elem_of.
Qed.

End DictOfFiles.

(** ** The two loops of [compare_versions] *)

Module CompareFacts.
Import PyDict PyDictFacts DictOfFiles.

Lemma omap_cons {A B} (f : A → option B) x l :
  omap f (x :: l)
  = match f x with Some y => y :: omap f l | None => omap f l end.
Proof. done. Qed.

Lemma occurrences_cons e e' plan :
  occurrences e (e' :: plan)
  = (if decide (e' = e) then 1 else 0) + occurrences e plan.
Proof. unfold occurrences. rewrite filter_cons. by case_decide. Qed.

Lemma occurrences_app e plan1 plan2 :
  occurrences e (plan1 ++ plan2) = occurrences e plan1 + occurrences e plan2.
Proof. unfold occurrences. by rewrite filter_app, length_app. Qed.

Lemma occurrences_0 e plan : e ∉ plan → occurrences e plan = 0.
Proof.
  induction plan as [|e' plan IH]; [done|].
  rewrite not_elem_of_cons, occurrences_cons. intros [Hne Hnot].
  rewrite decide_False by done. by rewrite IH.
Qed.

Lemma copy_test_true from_files n h :
  negb (contains from_files n)
  || negb (bool_decide (get from_files n = Some h)) = true
  ↔ get from_files n ≠ Some h.
Proof.
  unfold contains.
  rewrite orb_true_iff, !negb_true_iff, !bool_decide_eq_false. split.
  - intros [Hn|Hn]; [|done]. intros Heq. apply Hn. rewrite Heq. eauto.
  - auto.
Qed.

Lemma elem_of_copy_items to_files from_files e :
  e ∈ copy_items to_files from_files ↔
  ∃ h, (filename e, h) ∈ to_files ∧ status e = "copy"
       ∧ get from_files (filename e) ≠ Some h.
Proof.
  unfold copy_items. rewrite list_elem_of_omap. split.
  - intros ([n h] & Hin & Hf).
    destruct (negb (contains from_files n) || _) eqn:Ht; [|done].
    injection Hf as <-. simpl. exists h. split_and!; [done..|].
    by apply copy_test_true.
  - intros (h & Hin & Hst & Hg). exists (filename e, h). split; [done|].
    apply copy_test_true in Hg. rewrite Hg.
    destruct e as [n st]; simpl in *. by subst st.
Qed.

Lemma elem_of_move_items to_files from_files e :
  e ∈ move_items to_files from_files ↔
  filename e ∈ keys from_files ∧ status e = "move"
  ∧ filename e ∉ keys to_files.
Proof.
  unfold move_items. rewrite list_elem_of_omap. split.
  - intros (n & Hin & Hf).
    destruct (contains to_files n) eqn:Hc; simpl in Hf; [done|].
    injection Hf as <-. simpl. split_and!; [done..|].
    intros Hk. apply contains_keys in Hk. congruence.
  - intros (Hin & Hst & Hnot). exists (filename e). split; [done|].
    destruct e as [n st]; simpl in *; subst st.
    destruct (contains to_files n) eqn:Hc; simpl; [|done].
    by apply contains_keys in Hc.
Qed.

(** Each loop visits a key once, so it emits an entry at most once. *)
Lemma occurrences_copy_items to_files from_files e :
  NoDup (keys to_files) →
  e ∈ copy_items to_files from_files →
  occurrences e (copy_items to_files from_files) = 1.
Proof.
  unfold keys. induction to_files as [|[n h] d IH]; intros Hnd Hin.
  - by apply elem_of_nil in Hin.
  - apply NoDup_cons in Hnd as [Hn Hnd]. simpl in Hn.
    change (copy_items ((n, h) :: d) from_files)
      with (match (if negb (contains from_files n)
                      || negb (bool_decide (get from_files n = Some h))
                   then Some (PlanItem n "copy") else None) with
            | Some y => y :: copy_items d from_files
            | None => copy_items d from_files
            end) in *.
    destruct (negb (contains from_files n) || _); simpl in *.
    + rewrite occurrences_cons.
      apply elem_of_cons in Hin as [->|Hin].
      * rewrite decide_True by done. rewrite occurrences_0; [done|].
        intros Hin. apply elem_of_copy_items in Hin as (h' & Hin & _).
        apply Hn. by apply (list_elem_of_fmap_2 fst _ (n, h')).
      * rewrite decide_False; [by rewrite IH|].
        intros <-. apply elem_of_copy_items in Hin as (h' & Hin & _).
        apply Hn. by apply (list_elem_of_fmap_2 fst _ (n, h')).
    + by apply IH.
Qed.

Lemma occurrences_move_items to_files from_files e :
  NoDup (keys from_files) →
  e ∈ move_items to_files from_files →
  occurrences e (move_items to_files from_files) = 1.
Proof.
  unfold move_items. generalize (keys from_files) as ks.
  induction ks as [|n ks IH]; intros Hnd Hin.
  - by apply elem_of_nil in Hin.
  - apply NoDup_cons in Hnd as [Hn Hnd].
    assert (∀ e', e' ∈ omap (λ name, if negb (contains to_files name)
              then Some (PlanItem name "move") else None) ks →
              filename e' ∈ ks) as Hks.
    { intros e' He'. apply list_elem_of_omap in He' as (n' & Hn' & Hf).
      destruct (contains to_files n'); simpl in Hf; [done|].
      by injection Hf as <-. }
    rewrite omap_cons in *.
    destruct (negb (contains to_files n)).
    + rewrite occurrences_cons.
      apply elem_of_cons in Hin as [->|Hin].
      * rewrite decide_True by done. rewrite occurrences_0; [done|].
        intros Hin. by apply Hks in Hin.
      * rewrite decide_False; [by rewrite IH|].
        intros <-. by apply Hks in Hin.
    + by apply IH.
Qed.

(** Comparing a snapshot with itself finds nothing to do. *)
Lemma compare_versions_same s :
  compare_versions s s = Finished (Comparison []).
Proof.
  unfold compare_versions. do 2 f_equal.
  pose proof (NoDup_keys_files_dict s) as Hnd.
  destruct (copy_items (files_dict s) (files_dict s)) as [|e l] eqn:Hc.
  - destruct (move_items (files_dict s) (files_dict s)) as [|e l] eqn:Hm;
      [done|].
    assert (e ∈ move_items (files_dict s) (files_dict s)) as Hin
      by (rewrite Hm; left).
    apply elem_of_move_items in Hin as (? & _ & ?). done.
  - assert (e ∈ copy_items (files_dict s) (files_dict s)) as Hin
      by (rewrite Hc; left).
    apply elem_of_copy_items in Hin as (h & Hin & _ & Hg).
    by apply get_elem_of in Hin.
Qed.

End CompareFacts.

(** ** compare_versions: the claims *)

Module Compare.
Import PyDict PyDictFacts DictOfFiles CompareFacts.

Lemma copy_wanted_get target current p h :
  unique_paths target → unique_paths current →
  FileRecord p h ∈ files target →
  (¬ path_in current p ∨ ∃ h', FileRecord p h' ∈ files current ∧ h' ≠ h) →
  (p, h) ∈ files_dict target ∧ get (files_dict current) p ≠ Some h.
Proof.
  intros Ht Hc Hin Hcur. split.
  - apply elem_of_get. rewrite get_files_dict. by apply last_hash_unique.
  - rewrite get_files_dict. intros Hl.
    destruct Hcur as [Hno|(h' & Hin' & Hne)].
    + apply Hno. exists h. by apply last_hash_elem_of.
    + apply (last_hash_unique _ _ _ Hc) in Hin'. congruence.
Qed.

Lemma copy_item_wanted target current e :
  e ∈ copy_items (files_dict target) (files_dict current) →
  status e = "copy" ∧ copy_wanted target current (filename e).
Proof.
  intros (h & Hin & Hst & Hg)%elem_of_copy_items. split; [done|].
  apply get_elem_of in Hin; [|apply NoDup_keys_files_dict].
  rewrite get_files_dict in Hin, Hg.
  exists h. split; [by apply last_hash_elem_of|].
  destruct (last_hash (files current) (filename e)) as [h'|] eqn:Hc.
  - right. exists h'. split; [by apply last_hash_elem_of|congruence].
  - left. rewrite path_in_last_hash, Hc. by intros [? ?].
Qed.

Lemma move_item_wanted target current e :
  e ∈ move_items (files_dict target) (files_dict current) →
  status e = "move" ∧ move_wanted target current (filename e).
Proof.
  intros (Hin & Hst & Hnot)%elem_of_move_items. split; [done|].
  apply get_None in Hnot. rewrite get_files_dict in Hnot. split.
  - rewrite path_in_last_hash, <-get_files_dict.
    rewrite <-not_eq_None_Some, get_None. auto.
  - rewrite path_in_last_hash, Hnot. by intros [? ?].
Qed.

(** C1. For two snapshots with unique paths, the plan of
    [compare_versions] holds exactly one "copy" entry for each path of
    the target that the current snapshot lacks or has with another
    digest, exactly one "move" entry for each path of the current
    snapshot that the target lacks, and nothing else: every entry of the
    plan is one of these, so a path with equal digests on both sides has
    no entry. *)
Theorem compare_versions_complete target current :
  unique_paths target → unique_paths current →
  ∃ plan,
    compare_versions target current = Finished (Comparison plan)
    ∧ (∀ p, copy_wanted target current p →
            occurrences (PlanItem p "copy") plan = 1
            ∧ occurrences (PlanItem p "move") plan = 0)
    ∧ (∀ p, move_wanted target current p →
            occurrences (PlanItem p "move") plan = 1
            ∧ occurrences (PlanItem p "copy") plan = 0)
    ∧ (∀ e, e ∈ plan →
            status e = "copy" ∧ copy_wanted target current (filename e)
            ∨ status e = "move" ∧ move_wanted target current (filename e)).
Proof.
  intros Ht Hc. eexists. split; [reflexivity|].
  assert (∀ p, PlanItem p "move"
               ∉ copy_items (files_dict target) (files_dict current)) as Hnm.
  { intros p (h & _ & Hst & _)%elem_of_copy_items. done. }
  assert (∀ p, PlanItem p "copy"
               ∉ move_items (files_dict target) (files_dict current)) as Hnc.
  { intros p (_ & Hst & _)%elem_of_move_items. done. }
  split_and!.
  - intros p (h & Hin & Hcur).
    destruct (copy_wanted_get target current p h) as [Hd Hg]; [done..|].
    assert (PlanItem p "copy"
            ∈ copy_items (files_dict target) (files_dict current)) as Hcopy.
    { apply elem_of_copy_items. exists h. simpl. auto. }
    rewrite !occurrences_app.
    rewrite (occurrences_copy_items (files_dict target) (files_dict current)),
      (occurrences_0 _ (move_items _ _));
      [|done..|apply NoDup_keys_files_dict|done].
    split; [done|].
    rewrite (occurrences_0 _ (copy_items _ _)) by done.
    apply occurrences_0. intros (_ & _ & Hnot)%elem_of_move_items.
    simpl in Hnot. apply Hnot.
    by apply (list_elem_of_fmap_2 fst _ (p, h)).
  - intros p [Hin Hnot].
    assert (PlanItem p "move"
            ∈ move_items (files_dict target) (files_dict current)) as Hmove.
    { apply elem_of_move_items. simpl. split_and!; [|done|].
      - apply path_in_last_hash in Hin.
        rewrite <-get_files_dict, <-not_eq_None_Some, get_None in Hin.
        by destruct (decide (p ∈ keys (files_dict current))); [|exfalso; auto].
      - apply get_None. rewrite get_files_dict.
        destruct (last_hash (files target) p) eqn:Hl; [|done].
        exfalso. apply Hnot, path_in_last_hash. rewrite Hl. eauto. }
    rewrite !occurrences_app.
    rewrite (occurrences_move_items (files_dict target) (files_dict current)),
      (occurrences_0 _ (copy_items _ _));
      [|done..|apply NoDup_keys_files_dict|done].
    split; [done|].
    rewrite (occurrences_0 _ (move_items _ _)) by done.
    rewrite Nat.add_0_r.
    apply occurrences_0. intros (h & Hd & _)%elem_of_copy_items.
    simpl in Hd. apply Hnot. exists h.
    apply last_hash_elem_of. rewrite <-get_files_dict.
    apply get_elem_of; [apply NoDup_keys_files_dict|done].
  - intros e [He|He]%elem_of_app.
    + left. by apply copy_item_wanted.
    + right. by apply move_item_wanted.
Qed.

Lemma compare_versions_complete_witness :
  unique_paths Ex.target_snapshot ∧ unique_paths Ex.current_snapshot
  ∧ ∃ plan,
      compare_versions Ex.target_snapshot Ex.current_snapshot
      = Finished (Comparison plan)
      ∧ (∀ p, copy_wanted Ex.target_snapshot Ex.current_snapshot p →
              occurrences (PlanItem p "copy") plan = 1
              ∧ occurrences (PlanItem p "move") plan = 0)
      ∧ (∀ p, move_wanted Ex.target_snapshot Ex.current_snapshot p →
              occurrences (PlanItem p "move") plan = 1
              ∧ occurrences (PlanItem p "copy") plan = 0)
      ∧ (∀ e, e ∈ plan →
              status e = "copy"
              ∧ copy_wanted Ex.target_snapshot Ex.current_snapshot (filename e)
              ∨ status e = "move"
                ∧ move_wanted Ex.target_snapshot Ex.current_snapshot
                    (filename e)).
Proof.
  assert (unique_paths Ex.target_snapshot) as Ht
    by (unfold unique_paths; apply (bool_decide_unpack _); vm_compute; exact I).
  assert (unique_paths Ex.current_snapshot) as Hc
    by (unfold unique_paths; apply (bool_decide_unpack _); vm_compute; exact I).
  split; [exact Ht|]. split; [exact Hc|].
  exact (compare_versions_complete _ _ Ht Hc).
Defined.

(** The plan of the scenario, as the code computes it. *)
Example compare_versions_scenario :
  compare_versions Ex.target_snapshot Ex.current_snapshot
  = Finished (Comparison [PlanItem "a.txt" "copy"; PlanItem "b.txt" "move"]).
Proof. reflexivity. Qed.

(** C4. Comparing a snapshot with itself yields the empty plan, for
    every snapshot; so scanning a folder and comparing the result with
    itself yields the empty plan whenever the scan returns. *)
Theorem compare_versions_identity :
  (∀ s, compare_versions s s = Finished (Comparison []))
  ∧ (∀ md5_hexdigest f,
       compare_versions (Snapshot (scan_files md5_hexdigest f))
                        (Snapshot (scan_files md5_hexdigest f))
       = Finished (Comparison []))
  ∧ (∀ md5_hexdigest folder_path on_disk,
       obind (scan_folder md5_hexdigest folder_path on_disk)
             (λ s, compare_versions s s)
       = obind (scan_folder md5_hexdigest folder_path on_disk)
               (λ _, Finished (Comparison []))).
Proof.
  split_and!.
  - apply compare_versions_same.
  - intros. apply compare_versions_same.
  - intros md5 folder_path on_disk.
    destruct (scan_folder md5 folder_path on_disk) as [s|e]; simpl; [|done].
    apply compare_versions_same.
Qed.

(** C7, counterexample. A target snapshot with two records for
    [a.txt] is accepted: the comparison finishes, and it used the digest
    of the second record without a word about the first. *)
Lemma compare_versions_accepts_duplicates :
  ¬ unique_paths Ex.duplicate_snapshot
  ∧ compare_versions Ex.duplicate_snapshot (Snapshot [FileRecord "a.txt" "D2"])
    = Finished (Comparison [])
  ∧ compare_versions Ex.duplicate_snapshot (Snapshot [FileRecord "a.txt" "D1"])
    = Finished (Comparison [PlanItem "a.txt" "copy"]).
Proof.
  split; [|split; reflexivity].
  unfold unique_paths. apply (bool_decide_unpack _). vm_compute. exact I.
Qed.

(** C7, amended. [compare_versions] never fails, whatever the
    snapshots: it has no check for duplicate paths. A path with several
    records counts with the digest of its last record: the plan has a
    "copy" entry for a path exactly when the target has it and the last
    digest of the current snapshot differs from the last digest of the
    target, a "move" entry exactly when the current snapshot has it and
    the target has not, and each entry once. *)
Theorem compare_versions_last_record_wins target current :
  ∃ plan,
    compare_versions target current = Finished (Comparison plan)
    ∧ (∀ e, e ∈ plan ↔
         status e = "copy"
         ∧ is_Some (last_hash (files target) (filename e))
         ∧ last_hash (files current) (filename e)
           ≠ last_hash (files target) (filename e)
         ∨ status e = "move"
           ∧ is_Some (last_hash (files current) (filename e))
           ∧ last_hash (files target) (filename e) = None)
    ∧ (∀ e, e ∈ plan → occurrences e plan = 1).
Proof.
  eexists. split; [reflexivity|].
  pose proof (NoDup_keys_files_dict target) as Hnt.
  pose proof (NoDup_keys_files_dict current) as Hnc.
  split.
  - intros e. rewrite elem_of_app, elem_of_copy_items, elem_of_move_items.
    rewrite <-!get_files_dict. split.
    + intros [(h & Hin & Hst & Hg)|(Hin & Hst & Hnot)].
      * left. apply get_elem_of in Hin; [|done]. rewrite Hin. eauto.
      * right. split; [done|]. split; [|by apply get_None].
        rewrite <-not_eq_None_Some, get_None. auto.
    + intros [(Hst & [h Hh] & Hne)|(Hst & Hs & Hn)].
      * left. exists h. split_and!; [by apply elem_of_get|done|congruence].
      * right. split_and!; [|done|by apply get_None].
        rewrite <-not_eq_None_Some, get_None in Hs.
        by destruct (decide (filename e ∈ keys (files_dict current)));
          [|exfalso; auto].
  - intros e [He|He]%elem_of_app; rewrite occurrences_app.
    + rewrite occurrences_copy_items by done.
      rewrite occurrences_0; [done|].
      intros (_ & Hst & _)%elem_of_move_items.
      apply elem_of_copy_items in He as (_ & _ & Hst' & _). congruence.
    + rewrite occurrences_move_items by done.
      rewrite occurrences_0; [done|].
      intros (_ & _ & Hst & _)%elem_of_copy_items.
      apply elem_of_move_items in He as (_ & Hst' & _). congruence.
Qed.

End Compare.

(** ** scan_folder: the claims *)

Module Scan.

Lemma elem_of_scan_files md5_hexdigest f r :
  r ∈ scan_files md5_hexdigest f ↔
  ∃ root names name data,
    (root, names) ∈ walk f ∧ name ∈ names
    ∧ content f !! Path.join root name = Some (File (Some data))
    ∧ r = FileRecord (Path.join root name) (md5_hexdigest data).
Proof.
  unfold scan_files. rewrite list_elem_of_bind. split.
  - intros ([root names] & Hr & Hw).
    apply list_elem_of_omap in Hr as (name & Hn & Hs).
    unfold scan_file in Hs.
    destruct (content f !! Path.join root name) as [[[data|]|]|] eqn:Hc;
      try done.
    injection Hs as <-. by exists root, names, name, data.
  - intros (root & names & name & data & Hw & Hn & Hc & ->).
    exists (root, names). split; [|done].
    apply list_elem_of_omap. exists name. split; [done|].
    unfold scan_file. by rewrite Hc.
Qed.

(** C8. Scanning an existing folder always returns a snapshot, whatever
    files in it cannot be read: the snapshot has the record of every
    file that can be read, and only those, so a file whose reading
    fails is left out and the others are all there. *)
Theorem scan_folder_isolates_failures md5_hexdigest folder_path f :
  folder_path ≠ "" →
  ∃ s,
    scan_folder md5_hexdigest folder_path (Some f) = Finished s
    ∧ ∀ r, r ∈ files s ↔
           ∃ root names name data,
             (root, names) ∈ walk f ∧ name ∈ names
             ∧ content f !! Path.join root name = Some (File (Some data))
             ∧ r = FileRecord (Path.join root name) (md5_hexdigest data).
Proof.
  intros Hpath. exists (Snapshot (scan_files md5_hexdigest f)). split.
  - unfold scan_folder. by rewrite bool_decide_false.
  - intros r. apply elem_of_scan_files.
Qed.

Lemma scan_folder_isolates_failures_witness :
  "/srv/app" ≠ ""
  ∧ ∃ s,
      scan_folder Ex.toy_digest "/srv/app" (Some Ex.folder_with_locked_file)
      = Finished s
      ∧ ∀ r, r ∈ files s ↔
             ∃ root names name data,
               (root, names) ∈ walk Ex.folder_with_locked_file
               ∧ name ∈ names
               ∧ content Ex.folder_with_locked_file !! Path.join root name
                 = Some (File (Some data))
               ∧ r = FileRecord (Path.join root name) (Ex.toy_digest data).
Proof.
  assert ("/srv/app" ≠ "") as Hpath by discriminate.
  split; [exact Hpath|].
  exact (scan_folder_isolates_failures Ex.toy_digest "/srv/app"
           Ex.folder_with_locked_file Hpath).
Defined.

(** The folder with the unreadable [locked.bin]: the two other files
    are recorded. *)
Example scan_folder_locked_file :
  scan_folder Ex.toy_digest "/srv/app" (Some Ex.folder_with_locked_file)
  = Finished (Snapshot [FileRecord "a.txt" "md5:A";
                        FileRecord "sub/c.txt" "md5:C"]).
Proof. vm_compute. reflexivity. Qed.

End Scan.

(** ** Facts about paths *)

Module PathFacts.
Import Path.
Local Open Scope list_scope.

Local Abbreviation chars := list_ascii_of_string.
Local Abbreviation not_sep := (λ c : ascii, negb (is_sep c)).

Lemma chars_app a b : chars (a +:+ b) = chars a ++ chars b.
Proof. induction a as [|c a IH]; simpl; [done|]. by rewrite IH. Qed.

Lemma chars_inj a b : chars a = chars b → a = b.
Proof.
  intros H. rewrite <-(string_of_list_ascii_of_string a),
    <-(string_of_list_ascii_of_string b). by rewrite H.
Qed.

Lemma is_sep_false c : is_sep c = false ↔ c ≠ sep.
Proof. unfold is_sep. by rewrite bool_decide_eq_false. Qed.

Lemma drop_while_not_sep l l' :
  Forall (λ c, c ≠ sep) l → drop_while not_sep (l ++ l') = drop_while not_sep l'.
Proof.
  induction 1 as [|c l Hc _ IH]; simpl; [done|].
  apply is_sep_false in Hc. by rewrite Hc.
Qed.

Lemma Forall_rev_ne l : Forall (λ c, c ≠ sep) l → Forall (λ c, c ≠ sep) (rev l).
Proof.
  intros H. apply Forall_forall. intros c Hc.
  apply list_elem_of_In, in_rev, list_elem_of_In in Hc.
  by apply (proj1 (Forall_forall _ _) H).
Qed.

(** The last character of a name is not a separator. *)
Lemma rev_name n :
  valid_name n → ∃ c l, rev (chars n) = c :: l ∧ is_sep c = false.
Proof.
  intros (Hne & _ & _ & Hall). apply Forall_rev_ne in Hall.
  destruct (rev (chars n)) as [|c l] eqn:Hrev.
  - exfalso. apply Hne, chars_inj. simpl.
    by rewrite <-(rev_involutive (chars n)), Hrev.
  - exists c, l. split; [done|]. apply is_sep_false.
    by apply Forall_cons in Hall as [? _].
Qed.

Lemma starts_with_sep_name n : valid_name n → starts_with_sep n = false.
Proof.
  intros (_ & _ & _ & Hall). destruct n as [|c n]; simpl in *; [done|].
  apply is_sep_false. by apply Forall_cons in Hall as [? _].
Qed.

Lemma ends_with_sep_rev p c l :
  rev (chars p) = c :: l → ends_with_sep p = is_sep c.
Proof. unfold ends_with_sep. by intros ->. Qed.

(** Joining below a plain parent puts a fixed prefix before the name. *)
Lemma join_plain parent :
  plain_parent parent →
  ∃ pre, ∀ b, starts_with_sep b = false → chars (join parent b) = pre ++ chars b.
Proof.
  intros [->|[->|Hend]].
  - exists []. intros b Hb. unfold join. by rewrite Hb.
  - exists ["/"%char]. intros b Hb. unfold join. by rewrite Hb.
  - destruct (decide (parent = "")) as [->|Hne].
    + exists []. intros b Hb. unfold join. by rewrite Hb.
    + exists (chars parent ++ ["/"%char]). intros b Hb. unfold join.
      rewrite Hb, Hend, bool_decide_false by done. simpl.
      rewrite !chars_app. simpl. by rewrite <-app_assoc.
Qed.

(** [dirname] undoes [join] of a name. *)
Lemma dirname_join parent n :
  plain_parent parent → valid_name n → dirname (join parent n) = parent.
Proof.
  intros Hp Hn. pose proof (starts_with_sep_name n Hn) as Hs.
  destruct Hn as (_ & _ & _ & Hall). apply Forall_rev_ne in Hall.
  assert (parent = "" ∨ parent = "/"
          ∨ (parent ≠ "" ∧ ends_with_sep parent = false)) as Hcase.
  { destruct Hp as [?|[?|?]]; auto.
    destruct (decide (parent = "")); auto. }
  unfold dirname, rev_head, join. rewrite Hs.
  destruct Hcase as [->|[->|[Hne Hend]]].
  - change ("" +:+ n) with n. simpl.
    rewrite <-(app_nil_r (rev (chars n))).
    by rewrite drop_while_not_sep.
  - change ("/" +:+ n) with (String "/"%char n). simpl.
    by rewrite drop_while_not_sep.
  - rewrite Hend, bool_decide_false by done. simpl.
    rewrite !chars_app, !rev_app_distr. simpl.
    rewrite <-app_assoc, drop_while_not_sep by done. simpl.
    destruct (rev (chars parent)) as [|c l] eqn:Hrev.
    + exfalso. apply Hne, chars_inj. simpl.
      by rewrite <-(rev_involutive (chars parent)), Hrev.
    + rewrite (ends_with_sep_rev _ _ _ Hrev) in Hend. simpl.
      rewrite Hend. simpl. change (rev l ++ [c]) with (rev (c :: l)).
      rewrite <-Hrev, rev_involutive.
      apply string_of_list_ascii_of_string.
Qed.

(** A name below [parent/n] is not [parent/m] for a name [m]. *)
Lemma sibling_not_inside parent n m :
  plain_parent parent → valid_name n → valid_name m →
  ¬ inside (join parent n) (join parent m).
Proof.
  intros Hp Hn Hm (rest & _ & Hrest & Heq).
  destruct (join_plain parent Hp) as [pre Hpre].
  pose proof (Hpre n (starts_with_sep_name n Hn)) as Hfolder.
  pose proof (Hpre m (starts_with_sep_name m Hm)) as Hzip.
  destruct (rev_name n Hn) as (c & l & Hrev & Hc).
  assert (join (join parent n) rest = join parent n +:+ "/" +:+ rest) as Hj.
  { unfold join at 1. rewrite Hrest.
    rewrite (ends_with_sep_rev _ c (l ++ rev pre)), Hc.
    - rewrite bool_decide_false; [done|].
      intros H0. rewrite H0 in Hfolder. simpl in Hfolder.
      destruct pre; [|done]. simpl in Hfolder.
      rewrite <-Hfolder in Hrev. done.
    - by rewrite Hfolder, rev_app_distr, Hrev. }
  rewrite Hj in Heq. apply (f_equal chars) in Heq.
  rewrite !chars_app, Hzip, Hfolder, <-app_assoc in Heq.
  apply app_inv_head in Heq.
  destruct Hm as (_ & _ & _ & Hall). rewrite Heq in Hall.
  apply Forall_app in Hall as [_ Hall]. simpl in Hall.
  by apply Forall_cons in Hall as [? _].
Qed.

(** *** Ancestors *)

Lemma take_drop_while f l : l = take_while f l ++ drop_while f l.
Proof. induction l as [|c l IH]; simpl; [done|]. destruct (f c); simpl; congruence. Qed.

Lemma drop_while_head f l c l' : drop_while f l = c :: l' → f c = false.
Proof.
  induction l as [|c0 l IH]; simpl; [done|].
  destruct (f c0) eqn:Hc; [done|]. by intros [= <- _].
Qed.

Lemma take_while_all f l c : c ∈ take_while f l → f c = true.
Proof.
  induction l as [|c0 l IH]; simpl; [by intros ?%elem_of_nil|].
  destruct (f c0) eqn:Hc; [|by intros ?%elem_of_nil].
  intros [->|Hin]%elem_of_cons; auto.
Qed.

Lemma starts_with_sep_chars s :
  starts_with_sep s = match chars s with c :: _ => is_sep c | [] => false end.
Proof. by destruct s. Qed.

Lemma chars_string_of l : chars (string_of_list_ascii l) = l.
Proof. apply list_ascii_of_string_of_list_ascii. Qed.

Lemma starts_with_sep_app a b :
  a ≠ "" → starts_with_sep (a +:+ b) = starts_with_sep a.
Proof. by destruct a. Qed.

(** A non-empty list of separators, reversed, starts with one. *)
Lemma rev_seps_head l l' :
  l ≠ [] → (∀ c, c ∈ l → is_sep c = true) →
  ∃ c k, rev l ++ l' = c :: k ∧ is_sep c = true.
Proof.
  intros Hne Hall. destruct (rev l) as [|c k] eqn:Hrev.
  - exfalso. apply Hne. by rewrite <-(rev_involutive l), Hrev.
  - exists c, (k ++ l'). split; [done|]. apply Hall.
    apply list_elem_of_In, in_rev. rewrite Hrev. by left.
Qed.

(** The directory part of a relative name is a relative name and a
    proper ancestor of it. *)
Lemma dirname_ancestor n :
  relative_name n → dirname n ≠ "" →
  ancestor (dirname n) n ∧ relative_name (dirname n).
Proof.
  intros [Hne Hrel] Hd. unfold dirname, rev_head in *.
  pose proof (take_drop_while not_sep (rev (chars n))) as Hr.
  set (b := take_while not_sep (rev (chars n))) in *.
  set (h := drop_while not_sep (rev (chars n))) in *.
  assert (chars n = rev h ++ rev b) as Hn.
  { by rewrite <-rev_app_distr, <-Hr, rev_involutive. }
  rewrite starts_with_sep_chars in Hrel.
  destruct (forallb is_sep h) eqn:Hall.
  - exfalso. destruct (rev_seps_head h (rev b)) as (c & k & Hck & Hc).
    + intros ->. by apply Hd.
    + intros c Hc. apply (proj1 (forallb_forall _ _) Hall).
      by apply list_elem_of_In.
    + rewrite Hn, Hck in Hrel. congruence.
  - pose proof (take_drop_while is_sep h) as Hh.
    set (s := take_while is_sep h) in *.
    set (h' := drop_while is_sep h) in *.
    assert (chars n = rev h' ++ rev s ++ rev b) as Hn'.
    { by rewrite Hn, Hh, rev_app_distr, <-app_assoc. }
    assert (s ≠ []) as Hs.
    { destruct h as [|c h0] eqn:Hhd; [done|].
      apply drop_while_head in Hhd. apply negb_false_iff in Hhd.
      subst s. simpl. by rewrite Hhd. }
    destruct (rev_seps_head s (rev b) Hs) as (c & k & Hck & Hc).
    { intros c. apply take_while_all. }
    split.
    + exists (string_of_list_ascii (rev s ++ rev b)). split.
      * apply chars_inj. by rewrite chars_app, !chars_string_of.
      * by rewrite starts_with_sep_chars, chars_string_of, Hck.
    + split; [done|]. rewrite starts_with_sep_chars, chars_string_of.
      destruct (rev h') as [|c' k'] eqn:Hrev.
      * exfalso. by apply Hd.
      * by rewrite Hn' in Hrel.
Qed.

Lemma append_assoc a b c : (a +:+ b) +:+ c = a +:+ (b +:+ c).
Proof. apply chars_inj. by rewrite !chars_app, app_assoc. Qed.

Lemma append_inv_head a b c : a +:+ b = a +:+ c → b = c.
Proof.
  intros H. apply chars_inj. apply (f_equal chars) in H.
  rewrite !chars_app in H. by apply app_inv_head in H.
Qed.

Lemma append_nil_r a : a +:+ "" = a.
Proof. apply chars_inj. by rewrite chars_app, app_nil_r. Qed.

Lemma ancestor_trans a b c : ancestor a b → ancestor b c → ancestor a c.
Proof.
  intros (s & -> & Hs) (s' & -> & Hs'). exists (s +:+ s'). split.
  - apply append_assoc.
  - rewrite starts_with_sep_app; [done|]. by intros ->.
Qed.

Lemma ancestor_ne a b : ancestor a b → a ≠ b.
Proof.
  intros (s & -> & Hs) Heq. rewrite <-(append_nil_r a) in Heq at 1.
  apply append_inv_head in Heq. by subst s.
Qed.

(** Two prefixes of one string: one is a prefix of the other. *)
Lemma append_eq_append a b c d :
  a +:+ b = c +:+ d →
  (∃ m, a = c +:+ m ∧ d = m +:+ b) ∨ (∃ m, c = a +:+ m ∧ b = m +:+ d).
Proof.
  intros H. apply (f_equal chars) in H. rewrite !chars_app in H.
  revert c H. induction a as [|x a IH]; intros c H; simpl in H.
  - right. exists c. split; [done|]. apply chars_inj. by rewrite chars_app.
  - destruct c as [|y c]; simpl in H.
    + left. exists (String x a). split; [done|].
      apply chars_inj. by rewrite chars_app.
    + injection H as -> H. destruct (IH c H) as [(m & -> & ->)|(m & -> & ->)].
      * left. by exists m.
      * right. by exists m.
Qed.


(** *** The quarantine directory *)

Lemma extra_files_dir_no_sep k m :
  extra_files_dir = k +:+ m → starts_with_sep m = false ∨ m = "".
Proof.
  intros H. destruct m as [|c m]; [by right|]. left. simpl.
  apply is_sep_false. intros ->.
  assert (Forall (λ c, c ≠ sep) (chars extra_files_dir)) as Hall.
  { repeat (apply Forall_cons; split; [done|]). apply Forall_nil_2. }
  rewrite H, chars_app in Hall. apply Forall_app in Hall as [_ Hall].
  simpl in Hall. by apply Forall_cons in Hall as [? _].
Qed.

Lemma quarantine_not_descendant k : ¬ ancestor k extra_files_dir.
Proof.
  intros (s & Hs & Hsep).
  destruct (extra_files_dir_no_sep _ _ Hs) as [?| ->]; [congruence|done].
Qed.

(** The ancestors of a name in quarantine are in quarantine. *)
Lemma ancestor_in_quarantine k n :
  ancestor k n → in_quarantine n → in_quarantine k.
Proof.
  intros Hk [->|(s0 & -> & Hs0)]; [by apply quarantine_not_descendant in Hk|].
  destruct Hk as (s & Heq & Hs).
  apply append_eq_append in Heq as [(m & Hm & ->)|(m & -> & ->)].
  - destruct (extra_files_dir_no_sep _ _ Hm) as [Hsep| ->].
    + destruct m as [|c m]; [|simpl in *; congruence].
      left. by rewrite Hm, append_nil_r.
    + left. by rewrite Hm, append_nil_r.
  - destruct m as [|c m].
    + left. by rewrite append_nil_r.
    + right. exists (String c m). split; [done|].
      by rewrite starts_with_sep_app in Hs0.
Qed.

Lemma descendant_in_quarantine k n :
  in_quarantine k → ancestor k n → in_quarantine n.
Proof.
  intros [->|Hk] Hn; right; [done|]. by apply (ancestor_trans _ k).
Qed.

Lemma join_extra_files_dir q :
  relative_name q → join extra_files_dir q = extra_files_dir +:+ "/" +:+ q.
Proof. intros [_ Hq]. unfold join. by rewrite Hq. Qed.

Lemma join_in_quarantine q :
  relative_name q → ancestor extra_files_dir (join extra_files_dir q).
Proof.
  intros Hq. rewrite join_extra_files_dir by done. by exists ("/" +:+ q).
Qed.

Lemma join_extra_files_dir_inj p q :
  relative_name p → relative_name q →
  join extra_files_dir p = join extra_files_dir q → p = q.
Proof.
  intros Hp Hq. rewrite !join_extra_files_dir by done.
  intros H%append_inv_head. by injection H.
Qed.

Lemma ancestor_join_extra_files_dir p q :
  relative_name p → relative_name q →
  ancestor (join extra_files_dir p) (join extra_files_dir q) → ancestor p q.
Proof.
  intros Hp Hq (s & Heq & Hs). exists s. split; [|done].
  rewrite !join_extra_files_dir in Heq by done.
  rewrite append_assoc in Heq. apply append_inv_head in Heq.
  simpl in Heq. by injection Heq.
Qed.

End PathFacts.

(** ** create_zip: the claims *)

Module Pack.

(** What [zipf.write] put into the archive: the nodes of the target
    folder under the names of the items. *)
Lemma elem_of_write_all target items name m :
  (name, m) ∈ (Zip.write_all target items).1 →
  (∃ item, item ∈ items ∧ filename item = name)
  ∧ target !! name
    = Some (match m with ZFile data => File (Some data) | ZDir => Dir end).
Proof.
  induction items as [|item items IH]; simpl.
  - by intros ?%elem_of_nil.
  - destruct (target !! filename item) as [[[data|]|]|] eqn:Ht.
    + destruct (Zip.write_all target items) as [z e]; simpl in *.
      intros [[= -> ->]|Hin]%elem_of_cons.
      * split; [|done]. exists item. split; [left|done].
      * destruct (IH Hin) as [(i & Hi & Hn) Hl]. split; [|done].
        exists i. split; [by right|done].
    + by intros ?%elem_of_nil.
    + destruct (Zip.write_all target items) as [z e]; simpl in *.
      intros [[= -> ->]|Hin]%elem_of_cons.
      * split; [|done]. exists item. split; [left|done].
      * destruct (IH Hin) as [(i & Hi & Hn) Hl]. split; [|done].
        exists i. split; [by right|done].
    + intros Hin. destruct (IH Hin) as [(i & Hi & Hn) Hl]. split; [|done].
      exists i. split; [by right|done].
Qed.

Lemma pack_written_Some plan to_folder target creatable p z :
  pack_written (create_zip plan to_folder target creatable) = Some (p, z) →
  p = Path.join (Path.dirname to_folder) "version_update.zip"
  ∧ z = (Zip.write_all target
           (filter (λ item, status item = "copy") plan)).1.
Proof.
  unfold create_zip. case_bool_decide; simpl; [done|].
  destruct (creatable _); simpl; [|done].
  destruct (Zip.write_all _ _) as [z' [e|]]; simpl; by intros [= <- <-].
Qed.

(** The "copy" entry of the scenario can be packaged. *)
Lemma scenario_copies_packable q :
  PlanItem q "copy" ∈ Ex.scenario_plan → packable q.
Proof.
  intros [[= ->]|[?|?%elem_of_nil]%elem_of_cons]%elem_of_cons; done.
Qed.




(** With no "copy" entry nothing is packaged: the result says so, and no
    archive is written. *)
Lemma create_zip_nothing plan to_folder target creatable :
  filter (λ item, status item = "copy") plan = [] →
  create_zip plan to_folder target creatable
  = PackRun (Finished (ZipResult None (Some "No files to zip"))) None.
Proof. intros H. unfold create_zip. by rewrite H. Qed.

Lemma valid_name_zip : valid_name "version_update.zip".
Proof.
  split_and!; [done..|]. simpl.
  repeat (apply Forall_cons; split; [done|]). apply Forall_nil_2.
Qed.

(** C10, at the failing inputs. When the target folder is written with a
    trailing separator, or is the root of the filesystem, [create_zip]
    creates the archive inside the target folder: [os.path.dirname] of
    such a path is the folder itself, not its parent. *)
Theorem create_zip_writes_inside_target :
  pack_written (create_zip Ex.scenario_plan "/" Ex.target_tree Ex.always)
  = Some ("/version_update.zip", Ex.scenario_archive)
  ∧ inside "/" "/version_update.zip"
  ∧ pack_written
      (create_zip Ex.scenario_plan "/srv/app/" Ex.target_tree Ex.always)
    = Some ("/srv/app/version_update.zip", Ex.scenario_archive)
  ∧ inside "/srv/app/" "/srv/app/version_update.zip".
Proof.
  split_and!; [by vm_compute| |by vm_compute|];
    by exists "version_update.zip".
Qed.

(** X12. Outside those inputs the archive is beside the target folder.
    For a target folder [parent/name], where [name] is a proper name and [parent] is
    empty, the root, or a path without a trailing separator, [create_zip]
    writes at most one file: nothing when the plan has no "copy" entry
    or the archive cannot be created, and otherwise the archive at
    [parent/version_update.zip], which is not inside the target
    folder. *)
Theorem create_zip_writes_beside_target plan parent name target creatable :
  plain_parent parent → valid_name name →
  let to_folder := Path.join parent name in
  let zip := Path.join parent "version_update.zip" in
  let run := create_zip plan to_folder target creatable in
  (pack_written run = None ↔
     filter (λ item, status item = "copy") plan = [] ∨ creatable zip = false)
  ∧ (∀ p z, pack_written run = Some (p, z) →
            p = zip ∧ ¬ inside to_folder p).
Proof.
  intros Hp Hn to_folder zip run. split.
  - subst run. unfold create_zip.
    unfold to_folder. rewrite (PathFacts.dirname_join _ _ Hp Hn). fold zip.
    case_bool_decide as Hempty; simpl; [by split; auto|].
    destruct (creatable zip) eqn:Hc; simpl; [|by split; auto].
    destruct (Zip.write_all _ _) as [z' [e|]]; simpl;
      (split; [done|by intros [?|?]]).
  - intros p z [-> _]%pack_written_Some.
    unfold to_folder. rewrite (PathFacts.dirname_join _ _ Hp Hn).
    split; [done|].
    apply PathFacts.sibling_not_inside; [done..|apply valid_name_zip].
Qed.

Lemma create_zip_writes_beside_target_witness :
  plain_parent "/srv" ∧ valid_name "app"
  ∧ (pack_written
       (create_zip Ex.scenario_plan (Path.join "/srv" "app") Ex.target_tree
          Ex.always) = None ↔
       filter (λ item, status item = "copy") Ex.scenario_plan = []
       ∨ Ex.always (Path.join "/srv" "version_update.zip") = false)
  ∧ (∀ p z,
       pack_written
         (create_zip Ex.scenario_plan (Path.join "/srv" "app") Ex.target_tree
            Ex.always) = Some (p, z) →
       p = Path.join "/srv" "version_update.zip"
       ∧ ¬ inside (Path.join "/srv" "app") p).
Proof.
  assert (plain_parent "/srv") as Hp by (right; right; reflexivity).
  assert (valid_name "app") as Hn.
  { split_and!; [discriminate..|]. simpl.
    repeat (apply Forall_cons; split; [discriminate|]). apply Forall_nil_2. }
  split; [exact Hp|]. split; [exact Hn|].
  exact (create_zip_writes_beside_target Ex.scenario_plan "/srv" "app"
           Ex.target_tree Ex.always Hp Hn).
Defined.

End Pack.

(** ** Frames of the filesystem calls *)

Module FsFacts.
Import PathFacts.

Lemma grows_refl name t : grows name t t.
Proof. intros k. by left. Qed.

Lemma grows_step head name t t1 t2 :
  grows head t t1 → ancestor head name → grows name t1 t2 → grows name t t2.
Proof.
  intros H1 Hanc H2 k.
  destruct (H2 k) as [Heq|(Hnone & Hdir & Hk)]; rewrite ?Heq.
  - destruct (H1 k) as [?|(? & ? & [->|Hk])]; [by left|right..].
    + split_and!; [done..|by right].
    + split_and!; [done..|]. right. by apply (ancestor_trans _ head).
  - destruct (H1 k) as [Heq|(? & ? & _)]; [|congruence].
    right. by rewrite <-Heq.
Qed.

Lemma mkdir_grows name t : grows name t (Os.mkdir name t).2.
Proof.
  unfold Os.mkdir. destruct (negb _); [apply grows_refl|].
  destruct (path_exists t name) eqn:He; [apply grows_refl|].
  intros k. simpl. destruct (decide (k = name)) as [->|Hne].
  - right. rewrite lookup_insert_eq. split_and!; [|done|by left].
    unfold path_exists in He. apply orb_false_iff in He as [_ He].
    apply bool_decide_eq_false in He.
    by destruct (t !! name); [exfalso; eauto|].
  - left. by rewrite lookup_insert_ne.
Qed.

(** [makedirs] only makes directories, at free names, on the way to
    [name]. *)
Lemma makedirs_rec_grows fuel exist_ok name t :
  relative_name name → grows name t (Os.makedirs_rec fuel exist_ok name t).2.
Proof.
  revert name t. induction fuel as [|fuel IH]; intros name t Hname.
  - cbn -[Path.dirname Path.basename Os.mkdir path_exists isdir].
    pose proof (mkdir_grows name t) as Hg.
    destruct (Os.mkdir name t) as [[[]|e] t1]; simpl in *; [done|].
    by destruct (_ || _).
  - cbn -[Path.dirname Path.basename Os.mkdir path_exists isdir].
    unfold bind, gets.
    assert (∃ o t1, (if bool_decide (Path.dirname name ≠ "")
                        && bool_decide (Path.basename name ≠ "")
                        && negb (path_exists t (Path.dirname name))
                     then except_file_exists
                            (Os.makedirs_rec fuel exist_ok (Path.dirname name))
                     else ret ()) t = (o, t1)
                    ∧ ∀ t2, grows name t1 t2 → grows name t t2)
      as (o & t1 & -> & Hstep).
    { destruct (bool_decide (Path.dirname name ≠ "")) eqn:Hd; simpl;
        [|by eexists _, _].
      apply bool_decide_eq_true in Hd.
      destruct (_ && _); [|by eexists _, _].
      destruct (dirname_ancestor name Hname Hd) as [Hanc Hrel].
      pose proof (IH (Path.dirname name) t Hrel) as Hg.
      unfold except_file_exists.
      destruct (Os.makedirs_rec fuel exist_ok (Path.dirname name) t)
        as [[[]|e] t1]; simpl in Hg.
      - eexists _, _. split; [done|]. intros t2.
        by apply (grows_step (Path.dirname name)).
      - destruct e; eexists _, _; (split; [done|]);
          intros t2; by apply (grows_step (Path.dirname name)). }
    destruct o as [[]|e]; [|by apply Hstep, grows_refl].
    apply Hstep. pose proof (mkdir_grows name t1) as Hg.
    destruct (Os.mkdir name t1) as [[[]|e] t2]; simpl in *; [done|].
    by destruct (_ || _).
Qed.

Lemma makedirs_grows exist_ok name t :
  relative_name name → grows name t (Os.makedirs exist_ok name t).2.
Proof. apply makedirs_rec_grows. Qed.

(** Making the directories to the empty name, the folder itself, changes
    nothing. *)
Lemma makedirs_root t : (Os.makedirs true "" t).2 = t.
Proof. done. Qed.

(** Extracting a member touches its name and the free names on the way
    to it. *)
Lemma extract_member_untouched m t k :
  relative_name m.1 → m.1 ≠ k → ¬ ancestor k m.1 →
  (Zip.extract_member m t).2 !! k = t !! k.
Proof.
  intros Hm Hne Hanc. unfold Zip.extract_member, bind, gets.
  assert (∃ o t1, (if negb (path_exists t (Path.dirname m.1))
                   then Os.makedirs false (Path.dirname m.1) else ret ()) t
                  = (o, t1) ∧ t1 !! k = t !! k) as (o & t1 & -> & <-).
  { destruct (path_exists t (Path.dirname m.1)) eqn:He; simpl;
      [by eexists _, _|].
    assert (Path.dirname m.1 ≠ "") as Hd by (by intros Hd; rewrite Hd in He).
    destruct (dirname_ancestor _ Hm Hd) as [Hup Hrel].
    pose proof (makedirs_grows false _ t Hrel k) as Hg.
    destruct (Os.makedirs false (Path.dirname m.1) t) as [o t1].
    exists o, t1. split; [done|]. simpl in Hg.
    destruct Hg as [?|(_ & _ & [->|Hk])]; [done|done|].
    exfalso. apply Hanc. by apply (ancestor_trans _ (Path.dirname m.1)). }
  destruct o as [[]|e]; [|done].
  destruct m.2 as [data|].
  - unfold Os.write_file. destruct (_ || _); [done|]. simpl.
    by rewrite lookup_insert_ne.
  - destruct (isdir t1 m.1); [done|].
    pose proof (mkdir_grows m.1 t1 k) as Hg.
    destruct Hg as [?|(_ & _ & [->|Hk])]; done.
Qed.

Lemma extractall_untouched z t k :
  (∀ m, m ∈ z → relative_name m.1 ∧ m.1 ≠ k ∧ ¬ ancestor k m.1) →
  (Zip.extractall z t).2 !! k = t !! k.
Proof.
  revert t. induction z as [|m z IH]; intros t Hz; [done|].
  simpl. unfold bind.
  destruct (Hz m) as (Hm & Hne & Hanc); [left|].
  pose proof (extract_member_untouched m t k Hm Hne Hanc) as Hstep.
  destruct (Zip.extract_member m t) as [[[]|e] t1]; simpl in *; [|done].
  rewrite IH; [done|]. intros m' Hm'. apply Hz. by right.
Qed.

Lemma isdir_lookup (t : tree) k : isdir t k = true ↔ k = "" ∨ t !! k = Some Dir.
Proof.
  unfold isdir. rewrite orb_true_iff, !bool_decide_eq_true. done.
Qed.

Lemma path_exists_iff (t : tree) k :
  path_exists t k = true ↔ k = "" ∨ is_Some (t !! k).
Proof.
  unfold path_exists. rewrite orb_true_iff, !bool_decide_eq_true. done.
Qed.

Lemma bind_finished {A B} (m : fsM A) (k : A → fsM B) (t : tree) b t' :
  bind m k t = (Finished b, t') →
  ∃ a t1, m t = (Finished a, t1) ∧ k a t1 = (Finished b, t').
Proof.
  unfold bind. destruct (m t) as [[a|e] t1]; [|done]. by exists a, t1.
Qed.

(** When [makedirs] returns, the directory exists. *)
Lemma makedirs_exists exist_ok name (t t' : tree) :
  Os.makedirs exist_ok name t = (Finished tt, t') →
  path_exists t' name = true.
Proof.
  unfold Os.makedirs. intros Hrun.
  assert (∃ t1, match Os.mkdir name t1 with
                | (Raised e, t2) =>
                    if negb exist_ok || negb (isdir t2 name)
                    then (Raised e, t2) else (Finished tt, t2)
                | r => r
                end = (Finished tt, t')) as [t1 Hlast].
  { destruct (String.length name);
      cbn -[Path.dirname Path.basename Os.mkdir path_exists isdir] in Hrun;
      [by exists t|].
    apply bind_finished in Hrun as (_ & t1 & _ & Hlast). by exists t1. }
  unfold Os.mkdir in Hlast. destruct (negb (isdir t1 _)).
  - destruct (negb exist_ok || negb (isdir t1 name)) eqn:Hc; [done|].
    injection Hlast as <-. apply orb_false_iff in Hc as [_ Hc].
    apply negb_false_iff, isdir_lookup in Hc. apply path_exists_iff.
    destruct Hc as [?|Hc]; [by left|right]. by rewrite Hc.
  - destruct (path_exists t1 name) eqn:He.
    + destruct (negb exist_ok || negb (isdir t1 name)); [done|].
      by injection Hlast as <-.
    + injection Hlast as <-. apply path_exists_iff. right.
      by rewrite lookup_insert_eq.
Qed.

(** The directories above a member, made before it is extracted. *)
Lemma extract_member_upper (m : string * zip_member) (t : tree) :
  relative_name m.1 →
  ∃ o t1,
    (if negb (path_exists t (Path.dirname m.1))
     then Os.makedirs false (Path.dirname m.1) else ret ()) t = (o, t1)
    ∧ (∀ k v, t !! k = Some v → t1 !! k = Some v)
    ∧ (o = Finished tt → path_exists t1 (Path.dirname m.1) = true).
Proof.
  intros Hm. destruct (path_exists t (Path.dirname m.1)) eqn:He; simpl.
  { by eexists _, _. }
  assert (Path.dirname m.1 ≠ "") as Hd by (by intros Hd; rewrite Hd in He).
  destruct (dirname_ancestor _ Hm Hd) as [_ Hrel].
  pose proof (makedirs_grows false _ t Hrel) as Hg.
  destruct (Os.makedirs false (Path.dirname m.1) t) as [o t1] eqn:Hrun.
  exists o, t1. split; [done|]. split.
  - intros k v Hk. destruct (Hg k) as [Heq|(? & _)]; simpl in *; congruence.
  - intros ->. by apply (makedirs_exists false _ t).
Qed.

(** After its extraction a member is in the folder. *)
Lemma extract_member_extracted (m : string * zip_member) (t t' : tree) :
  relative_name m.1 →
  Zip.extract_member m t = (Finished tt, t') → extracted t' m.
Proof.
  intros Hm. unfold Zip.extract_member, bind, gets.
  destruct (extract_member_upper m t Hm) as (o & t1 & -> & Hkeep & Hup).
  destruct o as [[]|e]; [|done]. specialize (Hup eq_refl).
  unfold extracted. destruct m.2 as [data|].
  - unfold Os.write_file.
    destruct (isdir t1 m.1 || _) eqn:Hc; [done|]. intros [= <-].
    apply orb_false_iff in Hc as [_ Hc]. apply negb_false_iff in Hc.
    assert (Path.dirname m.1 ≠ m.1) as Hne.
    { destruct (decide (Path.dirname m.1 = "")) as [->|Hd];
        [by intros H; apply (proj1 Hm)|].
      by apply ancestor_ne, dirname_ancestor. }
    split_and!.
    + apply path_exists_iff. apply path_exists_iff in Hup as [?|?]; [by left|].
      right. by rewrite lookup_insert_ne.
    + apply isdir_lookup. apply isdir_lookup in Hc as [?|?]; [by left|].
      right. by rewrite lookup_insert_ne.
    + by rewrite lookup_insert_eq.
  - destruct (isdir t1 m.1) eqn:Hd.
    + intros [= <-]. split; [done|].
      apply isdir_lookup in Hd as [Hd|?]; [|done]. by destruct Hm.
    + unfold Os.mkdir. destruct (negb _); [done|].
      destruct (path_exists t1 m.1); [done|]. intros [= <-].
      assert (Path.dirname m.1 ≠ m.1) as Hne.
      { destruct (decide (Path.dirname m.1 = "")) as [->|Hd'];
          [by intros H; apply (proj1 Hm)|].
        by apply ancestor_ne, dirname_ancestor. }
      split; [|by rewrite lookup_insert_eq].
      apply path_exists_iff. apply path_exists_iff in Hup as [?|?]; [by left|].
      right. by rewrite lookup_insert_ne.
Qed.

(** Extracting a member keeps what is in the folder, except under its
    own name; a directory is kept in any case. *)
Lemma extract_member_keeps (m : string * zip_member) (t t' : tree) k v :
  relative_name m.1 →
  Zip.extract_member m t = (Finished tt, t') →
  t !! k = Some v → m.1 ≠ k ∨ v = Dir → t' !! k = Some v.
Proof.
  intros Hm. unfold Zip.extract_member, bind, gets.
  destruct (extract_member_upper m t Hm) as (o & t1 & -> & Hkeep & _).
  destruct o as [[]|e]; [|done]. intros Hrun Hk%Hkeep Hcase.
  destruct m.2 as [data|].
  - unfold Os.write_file in Hrun.
    destruct (isdir t1 m.1 || _) eqn:Hc; [done|]. injection Hrun as <-.
    apply orb_false_iff in Hc as [Hc _].
    destruct (decide (m.1 = k)) as [Heq|Hne]; [|by rewrite lookup_insert_ne].
    destruct Hcase as [?| ->]; [done|]. exfalso.
    rewrite Heq in Hc. unfold isdir in Hc.
    rewrite (bool_decide_true (t1 !! k = Some Dir)) in Hc by done.
    by rewrite orb_true_r in Hc.
  - destruct (isdir t1 m.1); [by injection Hrun as <-|].
    unfold Os.mkdir in Hrun. destruct (negb _); [done|].
    destruct (path_exists t1 m.1) eqn:He; [done|]. injection Hrun as <-.
    rewrite lookup_insert_ne; [done|]. intros Heq. rewrite Heq in He.
    unfold path_exists in He.
    rewrite (bool_decide_true (is_Some _)) in He by eauto.
    by rewrite orb_true_r in He.
Qed.

(** Extracting a member deletes nothing. *)
Lemma extract_member_exists (m : string * zip_member) (t t' : tree) k :
  relative_name m.1 →
  Zip.extract_member m t = (Finished tt, t') →
  is_Some (t !! k) → is_Some (t' !! k).
Proof.
  intros Hm Hrun [v Hk].
  destruct (decide (m.1 = k)) as [Heq|Hne];
    [|exists v; apply (extract_member_keeps m t); auto].
  pose proof (extract_member_extracted m t t' Hm Hrun) as [_ Hex].
  rewrite <-Heq. destruct m.2 as [data|]; [destruct Hex|]; eauto.
Qed.

Lemma extracted_keeps (m : string * zip_member) (t t' : tree) :
  extracted t m →
  (∀ v, t !! m.1 = Some v → t' !! m.1 = Some v) →
  (is_Some (t !! Path.dirname m.1) → is_Some (t' !! Path.dirname m.1)) →
  (t !! Path.dirname m.1 = Some Dir → t' !! Path.dirname m.1 = Some Dir) →
  extracted t' m.
Proof.
  intros [Hup Hm] Hname Hex Hdir. split.
  - apply path_exists_iff. apply path_exists_iff in Hup as [?|?]; auto.
  - destruct m.2 as [data|]; [|by apply Hname].
    destruct Hm as [Hd Hf]. split; [|by apply Hname].
    apply isdir_lookup. apply isdir_lookup in Hd as [?|?]; auto.
Qed.

(** After [extractall] every member is in the folder, when no two
    members have the same name; nothing was deleted, and what is not
    under the name of a member is as before. *)
Lemma extractall_extracted z (t t' : tree) :
  (∀ m, m ∈ z → relative_name m.1) → NoDup z.*1 →
  Zip.extractall z t = (Finished tt, t') →
  (∀ k, is_Some (t !! k) → is_Some (t' !! k))
  ∧ (∀ k v, t !! k = Some v → (∀ m, m ∈ z → m.1 ≠ k) ∨ v = Dir →
            t' !! k = Some v)
  ∧ ∀ m, m ∈ z → extracted t' m.
Proof.
  revert t. induction z as [|m z IH]; intros t Hz Hnd Hrun.
  - injection Hrun as <-. split_and!; [done..|]. by intros m ?%elem_of_nil.
  - simpl in Hrun. unfold bind in Hrun.
    destruct (Zip.extract_member m t) as [[[]|e] t1] eqn:Hm; [|done].
    apply NoDup_cons in Hnd as [Hfresh Hnd].
    assert (relative_name m.1) as Hrel by (apply Hz; left).
    destruct (IH t1) as (Hex & Hkeep & Hall);
      [by intros m' ?; apply Hz; right|done..|].
    split_and!.
    + intros k Hk. by apply Hex, (extract_member_exists m t).
    + intros k v Hk Hcase. apply Hkeep.
      * apply (extract_member_keeps m t); [done..|].
        destruct Hcase as [Hcase|?]; [left|by right]. apply Hcase. left.
      * destruct Hcase as [Hcase|?]; [left|by right].
        intros m' Hm'. apply Hcase. by right.
    + intros m' [->|Hm']%elem_of_cons; [|by apply Hall].
      pose proof (extract_member_extracted m t t1 Hrel Hm) as Hthere.
      apply (extracted_keeps m t1); [done|..].
      * intros v Hv. apply Hkeep; [done|]. left. intros m' Hm' Heq.
        apply Hfresh. rewrite <-Heq. by apply (list_elem_of_fmap_2 fst).
      * apply Hex.
      * intros Hv. apply Hkeep; [done|by right].
Qed.

(** Extracting a member that is in the folder changes nothing. *)
Lemma extract_member_again (m : string * zip_member) (t : tree) :
  relative_name m.1 → extracted t m →
  Zip.extract_member m t = (Finished tt, t).
Proof.
  intros Hm [Hup Hex]. unfold Zip.extract_member, bind, gets.
  rewrite Hup. simpl. unfold ret. destruct m.2 as [data|].
  - destruct Hex as [Hdir Hfile]. unfold Os.write_file.
    rewrite Hdir. unfold isdir. rewrite Hfile.
    rewrite (bool_decide_false (m.1 = "")) by apply Hm.
    rewrite (bool_decide_false (Some _ = Some Dir)) by done. simpl.
    by rewrite insert_id.
  - unfold isdir. rewrite Hex.
    by rewrite (bool_decide_true (Some Dir = Some Dir)), orb_true_r.
Qed.

Lemma extractall_again z (t : tree) :
  (∀ m, m ∈ z → relative_name m.1 ∧ extracted t m) →
  Zip.extractall z t = (Finished tt, t).
Proof.
  induction z as [|m z IH]; intros Hz; [done|].
  simpl. unfold bind. destruct (Hz m) as [Hm Hex]; [left|].
  rewrite (extract_member_again m t Hm Hex). apply IH.
  intros m' Hm'. apply Hz. by right.
Qed.

(** Moving a file to a name that is not a directory is a rename: the
    bytes of the source are at the destination afterwards, the source is
    gone, and every other name is as before. Whatever file was at the
    destination is replaced. *)
Lemma move_file_renames src dst c t t' :
  t !! src = Some (File c) → isdir t dst = false →
  Shutil.move src dst t = (Finished tt, t') →
  t' !! dst = Some (File c)
  ∧ (src ≠ dst → t' !! src = None)
  ∧ ∀ k, k ≠ src → k ≠ dst → t' !! k = t !! k.
Proof.
  intros Hsrc Hdir. unfold Shutil.move, bind, gets. rewrite Hdir.
  unfold Os.rename. destruct (decide (src = dst)) as [<-|Hne].
  - intros [= <-]. done.
  - destruct (isdir t (Path.dirname dst)); simpl.
    + rewrite Hsrc. destruct (t !! dst) as [[c'|]|] eqn:Hdst.
      * intros [= <-]. split; [by rewrite lookup_insert_eq|]. split.
        -- intros _. by rewrite lookup_insert_ne, lookup_delete_eq.
        -- intros k Hk1 Hk2. by rewrite lookup_insert_ne, lookup_delete_ne.
      * by destruct (_ && _).
      * intros [= <-]. split; [by rewrite lookup_insert_eq|]. split.
        -- intros _. by rewrite lookup_insert_ne, lookup_delete_eq.
        -- intros k Hk1 Hk2. by rewrite lookup_insert_ne, lookup_delete_ne.
    + by destruct (_ && _).
Qed.

End FsFacts.

(** ** equalize_versions: the claims *)

Module Equalize.

Lemma makedirs_top exist_ok name t :
  Path.dirname name = "" →
  Os.makedirs exist_ok name t =
    match Os.mkdir name t with
    | (Raised e, t') =>
        if negb exist_ok || negb (isdir t' name)
        then (Raised e, t') else (Finished tt, t')
    | r => r
    end.
Proof.
  intros Hd. unfold Os.makedirs.
  destruct (String.length name);
    cbn -[Path.dirname Path.basename Os.mkdir path_exists isdir];
    [reflexivity|].
  rewrite Hd. unfold bind, gets.
  rewrite (bool_decide_false ("" ≠ "")) by (intros H; by apply H).
  reflexivity.
Qed.

(** Creating the quarantine directory: it is made when the name is free,
    kept when it is a directory, and refused when it is a file. *)
Lemma makedirs_extra_files_dir t :
  Os.makedirs true extra_files_dir t =
    match t !! extra_files_dir with
    | Some (File _) => (Raised (FileExistsError extra_files_dir), t)
    | _ => (Finished tt, <[extra_files_dir := Dir]> t)
    end.
Proof.
  rewrite makedirs_top by reflexivity. unfold Os.mkdir.
  change (Path.dirname extra_files_dir) with "".
  unfold isdir, path_exists. simpl.
  destruct (t !! extra_files_dir) as [[c|]|] eqn:Ht; simpl.
  - rewrite bool_decide_false; [done|]. by rewrite Ht.
  - rewrite bool_decide_true by done. simpl. by rewrite insert_id.
  - done.
Qed.

(** The loop looks at "move" entries only. *)
Lemma move_extra_files_filter plan moved t :
  move_extra_files plan moved t
  = move_extra_files (filter (λ item, status item = "move") plan) moved t.
Proof.
  revert moved t. induction plan as [|item plan IH]; intros moved t; [done|].
  rewrite filter_cons. simpl.
  case_bool_decide as Hst; rewrite ?decide_True, ?decide_False by done;
    [|apply IH].
  simpl. rewrite bool_decide_true by done.
  unfold bind, gets. destruct (path_exists t (filename item)); [|apply IH].
  destruct (Os.makedirs _ _ t) as [[[]|e] t1]; [|done].
  destruct (Shutil.move _ _ t1) as [[[]|e] t2]; [|done].
  apply IH.
Qed.

Lemma path_exists_lookup (t : tree) q :
  q ≠ "" → path_exists t q = true → is_Some (t !! q).
Proof.
  intros Hq. unfold path_exists. rewrite bool_decide_false by done. simpl.
  by intros ?%bool_decide_eq_true.
Qed.

Lemma relative_name_join q :
  relative_name q → relative_name (Path.join extra_files_dir q).
Proof.
  intros Hq. by rewrite PathFacts.join_extra_files_dir.
Qed.

(** What [os.makedirs(os.path.dirname(dest_path), exist_ok=True)] changes:
    it makes directories at free names above the destination. *)
Lemma makedirs_dest_frame q (t : tree) k :
  relative_name q →
  let ta := (Os.makedirs true (Path.dirname (Path.join extra_files_dir q)) t).2 in
  ta !! k = t !! k
  ∨ (t !! k = None ∧ ta !! k = Some Dir
     ∧ ancestor k (Path.join extra_files_dir q)).
Proof.
  intros Hq ta. subst ta.
  destruct (decide (Path.dirname (Path.join extra_files_dir q) = ""))
    as [->|Hd]; [by left|].
  destruct (PathFacts.dirname_ancestor _ (relative_name_join q Hq) Hd)
    as [Hanc Hrel].
  destruct (FsFacts.makedirs_grows true _ t Hrel k)
    as [?|(? & ? & [->|Hk])]; [by left|right..]; split_and!; try done.
  by apply (PathFacts.ancestor_trans _ _ _ Hk).
Qed.

Section MoveLoop.

(** The paths of the "move" entries of the plan. *)
Variable M : string → Prop.
Hypothesis M_names : ∀ q, M q → relative_name q ∧ ¬ in_quarantine q.
Hypothesis M_flat : ∀ q q', M q → M q' → ¬ ancestor q q'.

Lemma quarantine_ne q k : M q → in_quarantine k → q ≠ k.
Proof. intros Hq Hk ->. by apply (M_names k). Qed.

Lemma join_ne q q' : M q → M q' → q ≠ Path.join extra_files_dir q'.
Proof.
  intros Hq Hq'. apply quarantine_ne; [done|]. right.
  apply PathFacts.join_in_quarantine. by apply M_names.
Qed.

(** One turn of the loop for an entry whose source exists: the source, a
    file, is renamed to its place in quarantine; directories may have been
    made in quarantine; nothing else changed. *)
Lemma move_step q (t ta tb : tree) :
  M q →
  (∀ q', M q' → t !! q' ≠ Some Dir
                ∧ t !! Path.join extra_files_dir q' ≠ Some Dir) →
  path_exists t q = true →
  Os.makedirs true (Path.dirname (Path.join extra_files_dir q)) t
  = (Finished tt, ta) →
  Shutil.move q (Path.join extra_files_dir q) ta = (Finished tt, tb) →
  (∀ q', M q' → tb !! q' ≠ Some Dir
                ∧ tb !! Path.join extra_files_dir q' ≠ Some Dir)
  ∧ (∃ cq, t !! q = Some (File cq)
           ∧ tb !! Path.join extra_files_dir q = Some (File cq))
  ∧ tb !! q = None
  ∧ (∀ k v, k ≠ q → k ≠ Path.join extra_files_dir q →
            t !! k = Some v → tb !! k = Some v)
  ∧ (∀ k, ¬ in_quarantine k → k ≠ q → tb !! k = t !! k).
Proof.
  intros Hq HJ He Hmk Hmv. destruct (M_names q Hq) as [Hqrel Hqout].
  pose proof (λ k, makedirs_dest_frame q t k Hqrel) as Hframe.
  simpl in Hframe. rewrite Hmk in Hframe. simpl in Hframe.
  (* what [makedirs] left as it was *)
  assert (∀ k, ¬ in_quarantine k → ta !! k = t !! k) as Hout.
  { intros k Hk. destruct (Hframe k) as [?|(_ & _ & Hanc)]; [done|].
    exfalso. apply Hk. apply (PathFacts.ancestor_in_quarantine _ _ Hanc).
    right. by apply PathFacts.join_in_quarantine. }
  assert (∀ k v, t !! k = Some v → ta !! k = Some v) as Hkeep.
  { intros k v Hk. destruct (Hframe k) as [->|(? & _)]; congruence. }
  assert (∀ q', M q' → ta !! Path.join extra_files_dir q' ≠ Some Dir)
    as Hnodir.
  { intros q' Hq'. destruct (Hframe (Path.join extra_files_dir q'))
      as [->|(_ & _ & Hanc)]; [by apply HJ|].
    exfalso. apply (M_flat q' q Hq' Hq).
    apply PathFacts.ancestor_join_extra_files_dir;
      [by apply M_names..|done]. }
  (* the move is a rename of a file *)
  destruct (path_exists_lookup t q (proj1 Hqrel) He) as [[cq|] Hsrc];
    [|by destruct (HJ q Hq)].
  assert (ta !! q = Some (File cq)) as Hsrc' by (by apply Hkeep).
  assert (isdir ta (Path.join extra_files_dir q) = false) as Hdst.
  { unfold isdir.
    rewrite (bool_decide_false (_ = "")), bool_decide_false; [done|..].
    - by apply Hnodir.
    - apply (relative_name_join q Hqrel). }
  destruct (FsFacts.move_file_renames _ _ _ _ _ Hsrc' Hdst Hmv)
    as (Hnew & Hgone & Hother).
  specialize (Hgone (join_ne q q Hq Hq)).
  split_and!.
  - intros q' Hq'. split.
    + destruct (decide (q' = q)) as [->|Hne]; [by rewrite Hgone|].
      rewrite Hother; [|done|by apply join_ne].
      rewrite Hout; [by apply HJ|by apply M_names].
    + destruct (decide (q' = q)) as [->|Hne]; [by rewrite Hnew|].
      rewrite Hother; [by apply Hnodir| |].
      * apply not_eq_sym. by apply join_ne.
      * intros Heq. apply Hne.
        apply PathFacts.join_extra_files_dir_inj in Heq;
          [done|by apply M_names..].
  - by exists cq.
  - done.
  - intros k v Hk1 Hk2 Hk. rewrite Hother by done. by apply Hkeep.
  - intros k Hk Hne. rewrite Hother; [by apply Hout|done|].
    intros ->. apply Hk. right. by apply PathFacts.join_in_quarantine.
Qed.

(** The loop as a whole: outside the quarantine directory it only
    removes, and only the sources of its entries, which are all gone at
    the end; the quarantine directory stays. *)
Lemma move_extra_files_frame rest moved (t : tree) r t' :
  (∀ q, PlanItem q "move" ∈ rest → M q) →
  (∀ q, M q → t !! q ≠ Some Dir
              ∧ t !! Path.join extra_files_dir q ≠ Some Dir) →
  move_extra_files rest moved t = (Finished r, t') →
  (∀ k, ¬ in_quarantine k → t !! k = None → t' !! k = None)
  ∧ (∀ k, ¬ in_quarantine k → (∀ q, PlanItem q "move" ∈ rest → q ≠ k) →
          t' !! k = t !! k)
  ∧ (∀ q, PlanItem q "move" ∈ rest → t' !! q = None)
  ∧ (t !! extra_files_dir = Some Dir → t' !! extra_files_dir = Some Dir).
Proof.
  revert moved t. induction rest as [|item rest IH];
    intros moved t Hrest HJ Hrun.
  - injection Hrun as _ <-. split_and!; try done. by intros q ?%elem_of_nil.
  - assert (∀ q, PlanItem q "move" ∈ rest → M q) as Hrest'
      by (intros q Hq; apply Hrest; by right).
    simpl in Hrun. case_bool_decide as Hst; cycle 1.
    { (* not a "move" entry *)
      destruct (IH _ _ Hrest' HJ Hrun) as (H1 & H2 & H3 & H4).
      split_and!; [done| |  |done].
      - intros k Hk Hne. apply H2; [done|]. intros q Hq. apply Hne. by right.
      - intros q [<-|Hq]%elem_of_cons; [by simpl in Hst|by apply H3]. }
    destruct item as [q st]; simpl in *. subst st.
    assert (M q) as Hq by (apply Hrest; left).
    destruct (M_names q Hq) as [Hqrel Hqout].
    unfold bind, gets in Hrun.
    destruct (path_exists t q) eqn:He; cycle 1.
    { (* the source is not there *)
      destruct (IH _ _ Hrest' HJ Hrun) as (H1 & H2 & H3 & H4).
      split_and!; [done| | |done].
      - intros k Hk Hne. apply H2; [done|]. intros q' Hq'. apply Hne. by right.
      - intros q' [[= ->]|Hq']%elem_of_cons; [|by apply H3].
        apply H1; [done|]. unfold path_exists in He.
        apply orb_false_iff in He as [_ He]. apply bool_decide_eq_false in He.
        by destruct (t !! q); [exfalso; eauto|]. }
    destruct (Os.makedirs true (Path.dirname (Path.join extra_files_dir q)) t)
      as [[[]|e] ta] eqn:Hmk; [|done].
    destruct (Shutil.move q (Path.join extra_files_dir q) ta)
      as [[[]|e] tb] eqn:Hmv; [|done].
    destruct (move_step q t ta tb Hq HJ He Hmk Hmv)
      as (HJ' & _ & Hgone & Hkeep & Hout).
    destruct (IH _ _ Hrest' HJ' Hrun) as (H1 & H2 & H3 & H4).
    split_and!.
    + intros k Hk Hnone. apply H1; [done|].
      destruct (decide (k = q)) as [->|Hne]; [done|]. by rewrite Hout.
    + intros k Hk Hne. rewrite H2; [|done|].
      * apply Hout; [done|]. apply not_eq_sym, Hne. left.
      * intros q' Hq'. apply Hne. by right.
    + intros q' [[= ->]|Hq']%elem_of_cons; [by apply H1|by apply H3].
    + intros Hdir. apply H4. apply Hkeep; [| |done].
      * apply not_eq_sym, quarantine_ne; [done|by left].
      * apply PathFacts.ancestor_ne, PathFacts.join_in_quarantine. done.
Qed.

(** The file that is followed through the loop. *)
Variable p : string.
Variable c : option (list byte).
Hypothesis M_p : M p.


End MoveLoop.

(** The plan starts the loop with the sources of its "move" entries and
    their places in quarantine as they were in the folder. *)
Lemma equalize_versions_before_loop plan z (t t1 t2 : tree) :
  clear_of_quarantine plan z t →
  Zip.extractall z t = (Finished tt, t1) →
  Os.makedirs true extra_files_dir t1 = (Finished tt, t2) →
  t2 = <[extra_files_dir := Dir]> t1
  ∧ ∀ q, PlanItem q "move" ∈ plan →
         t2 !! q = t !! q
         ∧ t2 !! Path.join extra_files_dir q
           = t !! Path.join extra_files_dir q.
Proof.
  intros (Hmoves & Hflat & Hz & Hsep) Hx Hmk.
  rewrite makedirs_extra_files_dir in Hmk.
  assert (t2 = <[extra_files_dir := Dir]> t1) as ->
    by (destruct (t1 !! extra_files_dir) as [[?|]|]; by simplify_eq).
  split; [done|].
  assert (∀ k, (∀ m, m ∈ z → m.1 ≠ k ∧ ¬ ancestor k m.1) →
               k ≠ extra_files_dir →
               <[extra_files_dir := Dir]> t1 !! k = t !! k) as Hsame.
  { intros k Hk Hne. rewrite lookup_insert_ne by done.
    replace t1 with (Zip.extractall z t).2 by (by rewrite Hx).
    apply FsFacts.extractall_untouched. intros m Hm.
    split; [by apply Hz|by apply Hk]. }
  intros q Hq. destruct (Hmoves q Hq) as (Hrel & Hout & _). split.
  - apply Hsame; [by intros m Hm; apply Hsep|].
    intros ->. apply Hout. by left.
  - pose proof (PathFacts.join_in_quarantine q Hrel) as Hin.
    apply Hsame; [|by apply not_eq_sym, PathFacts.ancestor_ne].
    intros m Hm. destruct (Hz m Hm) as [_ Hmout]. split.
    + intros Heq. apply Hmout. right. by rewrite Heq.
    + intros Hanc. apply Hmout.
      apply (PathFacts.descendant_in_quarantine _ _ (or_intror Hin) Hanc).
Qed.


(** When the sources of all "move" entries are gone the loop does
    nothing. *)
Lemma move_extra_files_nothing plan moved (t : tree) :
  (∀ q, PlanItem q "move" ∈ plan → path_exists t q = false) →
  move_extra_files plan moved t = (Finished moved, t).
Proof.
  induction plan as [|item plan IH]; intros Hgone; [done|].
  simpl. assert (∀ q, PlanItem q "move" ∈ plan → path_exists t q = false)
    as Hgone' by (intros q Hq; apply Hgone; by right).
  case_bool_decide as Hst; [|by apply IH].
  unfold bind, gets. rewrite (Hgone (filename item)); [by apply IH|].
  destruct item as [q st]; simpl in *. subst st. left.
Qed.

(** X14. For canonical paths and outside collisions with the quarantine
    directory a second run is a no-op: when the first run finishes, a run
    with the same plan and archive on the folder it left finishes as
    well, moves nothing and leaves the folder as it is. *)
Theorem equalize_versions_again plan z (t : tree) r t' :
  canonical_names plan z →
  clear_of_quarantine plan z t → NoDup z.*1 →
  equalize_versions plan (Some z) t = (Finished r, t') →
  equalize_versions plan (Some z) t' = (Finished (EqualizeResult []), t').
Proof.
  intros _ Hclear Hnd Hrun.
  unfold equalize_versions, bind in Hrun.
  destruct (Zip.extractall z t) as [[[]|e] t1] eqn:Hx; [|done].
  destruct (Os.makedirs true extra_files_dir t1) as [[[]|e] t2] eqn:Hmk;
    [|done].
  destruct (move_extra_files plan [] t2) as [[moved|e] t3] eqn:Hloop;
    [|done].
  injection Hrun as _ <-.
  destruct (equalize_versions_before_loop plan z t t1 t2 Hclear Hx Hmk)
    as [Ht2 Hsame].
  destruct Hclear as (Hmoves & Hflat & Hz & Hsep).
  destruct (FsFacts.extractall_extracted z t t1) as (_ & _ & Hthere);
    [by intros m Hm; apply Hz|done..|].
  destruct (move_extra_files_frame (λ q, PlanItem q "move" ∈ plan))
    with (rest := plan) (moved := @nil string) (t := t2) (r := moved) (t' := t3)
    as (_ & Hout & Hgone & Hdir); try done.
  { intros q Hq. by destruct (Hmoves q Hq) as (? & ? & _). }
  { intros q Hq. destruct (Hsame q Hq) as [-> ->].
    by destruct (Hmoves q Hq) as (_ & _ & ? & ?). }
  (* the names of the members and of their upper directories are as
     [extractall] left them *)
  assert (∀ m k, m ∈ z → k = m.1 ∨ k = Path.dirname m.1 → t3 !! k = t1 !! k)
    as Hmember.
  { intros m k Hm Hk. destruct (Hz m Hm) as [Hrel Hmout].
    assert (¬ in_quarantine k ∧ ∀ q, PlanItem q "move" ∈ plan → q ≠ k)
      as [Hkout Hkne].
    { destruct Hk as [->| ->]; [split; [done|]; intros q Hq; by
        apply not_eq_sym, Hsep|].
      destruct (decide (Path.dirname m.1 = "")) as [Hd|Hd].
      - rewrite Hd. split.
        + intros [?|(s & Hs & _)]; [done|]. by destruct s.
        + intros q Hq. apply (Hmoves q Hq).
      - destruct (PathFacts.dirname_ancestor _ Hrel Hd) as [Hanc _]. split.
        + intros Hin. apply Hmout.
          by apply (PathFacts.descendant_in_quarantine _ _ Hin).
        + intros q Hq Heq. destruct (Hsep q m Hq Hm) as [_ Hn].
          apply Hn. by rewrite Heq. }
    rewrite Hout by done. rewrite Ht2. apply lookup_insert_ne.
    intros <-. apply Hkout. by left. }
  unfold equalize_versions, bind.
  rewrite FsFacts.extractall_again; cycle 1.
  { intros m Hm. split; [by apply Hz|].
    apply (FsFacts.extracted_keeps m t1); [by apply Hthere|..].
    - intros v. by rewrite (Hmember m m.1) by auto.
    - by rewrite (Hmember m (Path.dirname m.1)) by auto.
    - by rewrite (Hmember m (Path.dirname m.1)) by auto. }
  rewrite makedirs_extra_files_dir.
  rewrite Hdir by (rewrite Ht2; apply lookup_insert_eq).
  rewrite insert_id by (apply Hdir; rewrite Ht2; apply lookup_insert_eq).
  rewrite move_extra_files_nothing; [done|].
  intros q Hq. unfold path_exists. rewrite (Hgone q Hq).
  rewrite (bool_decide_false (q = "")) by apply (Hmoves q Hq).
  by rewrite (bool_decide_false (is_Some None)) by (by intros [? ?]).
Qed.

(** The scenario of the specification keeps clear of the quarantine
    directory. *)
Lemma scenario_clear_of_quarantine :
  clear_of_quarantine Ex.scenario_plan Ex.scenario_archive Ex.current_tree.
Proof.
  assert (∀ q, PlanItem q "move" ∈ Ex.scenario_plan → q = "b.txt") as Hq.
  { intros q [?|[?|?%elem_of_nil]%elem_of_cons]%elem_of_cons;
      by simplify_eq. }
  assert (∀ m, m ∈ Ex.scenario_archive → m.1 = "a.txt") as Hm.
  { intros m [->|?%elem_of_nil]%elem_of_cons; done. }
  assert (∀ n, (n = "a.txt" ∨ n = "b.txt") → ¬ in_quarantine n) as Hout.
  { intros n Hn [Heq|(s & Heq & _)]; destruct Hn as [-> | ->];
      by inversion Heq. }
  split_and!.
  - intros q ->%Hq. split_and!; [done..|by apply Hout; right| |]; by vm_compute.
  - intros q q' ->%Hq ->%Hq H%PathFacts.ancestor_ne. done.
  - intros m Hin. rewrite (Hm m Hin). split; [done|]. apply Hout. by left.
  - intros q m ->%Hq Hin. rewrite (Hm m Hin). split; [done|].
    intros (s & Heq & _). by inversion Heq.
Qed.

(** The paths of the scenario are canonical. *)
Lemma scenario_canonical_names :
  canonical_names Ex.scenario_plan Ex.scenario_archive.
Proof.
  split.
  - intros q [?|[[= ->]|?%elem_of_nil]%elem_of_cons]%elem_of_cons; done.
  - intros m [->|?%elem_of_nil]%elem_of_cons; done.
Qed.


(** The theorem in the scenario: a second run changes nothing. *)
Lemma equalize_versions_again_witness :
  let run :=
    equalize_versions Ex.scenario_plan (Some Ex.scenario_archive)
      Ex.current_tree in
  canonical_names Ex.scenario_plan Ex.scenario_archive
  ∧ clear_of_quarantine Ex.scenario_plan Ex.scenario_archive Ex.current_tree
  ∧ NoDup Ex.scenario_archive.*1
  ∧ run = (Finished (EqualizeResult ["b.txt"]), run.2)
  ∧ equalize_versions Ex.scenario_plan (Some Ex.scenario_archive) run.2
    = (Finished (EqualizeResult []), run.2).
Proof.
  intros run.
  assert (NoDup Ex.scenario_archive.*1) as Hnd by apply NoDup_singleton.
  assert (run = (Finished (EqualizeResult ["b.txt"]), run.2)) as Hrun
    by (vm_compute; reflexivity).
  split; [exact scenario_canonical_names|].
  split; [exact scenario_clear_of_quarantine|]. split; [exact Hnd|].
  split; [exact Hrun|].
  exact (equalize_versions_again _ _ _ _ _
           scenario_canonical_names scenario_clear_of_quarantine Hnd Hrun).
Defined.

(** The scenario of the specification: [a.txt] is overwritten with the
bytes of the target and [b.txt] is moved to
[ExtraFiles_VersionEqualizer/b.txt]. *)
Example equalize_versions_scenario :
  equalize_versions Ex.scenario_plan (Some Ex.scenario_archive) Ex.current_tree
  = (Finished (EqualizeResult ["b.txt"]),
     list_to_map
       [("a.txt", File (Some (Ex.bytes_of "new a")));
        ("ExtraFiles_VersionEqualizer", Dir);
        ("ExtraFiles_VersionEqualizer/b.txt",
         File (Some (Ex.bytes_of "old b")))]).
Proof. vm_compute. reflexivity. Qed.

(** C2, at the failing input. A folder that was equalized before holds
    [b.txt] and, in quarantine, an older [b.txt]; the target has
    neither. The plan of [compare_versions] moves both. After
    [equalize_versions], the older file is gone from the folder
    altogether, and the newer one is not at
    [ExtraFiles_VersionEqualizer/b.txt]. *)
Theorem equalize_versions_overwrites_quarantine :
  obind (scan_folder Ex.toy_digest "/srv/target" (Some Ex.target_folder))
    (λ to_version,
       obind (scan_folder Ex.toy_digest "/srv/app" (Some Ex.rerun_folder))
         (compare_versions to_version))
  = Finished (Comparison Ex.rerun_plan)
  ∧ snd <$> pack_written
              (create_zip Ex.rerun_plan "/srv/target" Ex.target_tree Ex.always)
    = Some Ex.scenario_archive
  ∧ let run :=
      equalize_versions Ex.rerun_plan (Some Ex.scenario_archive)
        Ex.rerun_tree in
    run.1 = Finished (EqualizeResult
                        ["b.txt"; "ExtraFiles_VersionEqualizer/b.txt"])
    ∧ run.2 !! "ExtraFiles_VersionEqualizer/b.txt" = None
    ∧ run.2 !! "ExtraFiles_VersionEqualizer/ExtraFiles_VersionEqualizer/b.txt"
      = Some (File (Some (Ex.bytes_of "second b")))
    ∧ map_Forall (λ _ n, n ≠ File (Some (Ex.bytes_of "first b"))) run.2.
Proof.
  do 2 (split; [vm_compute; reflexivity|]). intros run. subst run.
  split_and!; try (vm_compute; reflexivity).
  apply (bool_decide_unpack _). vm_compute. exact I.
Qed.

(** C3, at the failing input. The target has a file
    [ExtraFiles_VersionEqualizer/b.txt], the current folder a file
    [b.txt]. The first run extracts the former and replaces it by the
    latter; the second run extracts it again over the quarantined file:
    the two folders differ, and the quarantined bytes are lost. *)
Theorem equalize_versions_twice_differs :
  obind (scan_folder Ex.toy_digest "/srv/target" (Some Ex.nested_target))
    (λ to_version,
       obind (scan_folder Ex.toy_digest "/srv/app" (Some Ex.nested_current))
         (compare_versions to_version))
  = Finished (Comparison Ex.nested_plan)
  ∧ snd <$> pack_written
              (create_zip Ex.nested_plan "/srv/target"
                 (content Ex.nested_target) Ex.always)
    = Some Ex.nested_archive
  ∧ let once :=
      equalize_versions Ex.nested_plan (Some Ex.nested_archive)
        (content Ex.nested_current) in
    let twice :=
      equalize_versions Ex.nested_plan (Some Ex.nested_archive) once.2 in
    once.1 = Finished (EqualizeResult ["b.txt"])
    ∧ twice.1 = Finished (EqualizeResult [])
    ∧ once.2 !! "ExtraFiles_VersionEqualizer/b.txt"
      = Some (File (Some (Ex.bytes_of "current b")))
    ∧ twice.2 !! "ExtraFiles_VersionEqualizer/b.txt"
      = Some (File (Some (Ex.bytes_of "target b")))
    ∧ map_Forall (λ _ n, n ≠ File (Some (Ex.bytes_of "current b"))) twice.2
    ∧ twice.2 ≠ once.2.
Proof.
  do 2 (split; [vm_compute; reflexivity|]). intros once twice.
  subst once twice.
  split_and!; try (vm_compute; reflexivity).
  - apply (bool_decide_unpack _). vm_compute. exact I.
  - intros Heq.
    apply (f_equal (λ t : tree, t !! "ExtraFiles_VersionEqualizer/b.txt"))
      in Heq.
    vm_compute in Heq. discriminate.
Qed.

(** C6, counterexample. The plan names [a.txt] for copying and the
    archive does not have it: the run finishes with the same result as
    with the complete archive, and [a.txt] is not in the folder. *)
Lemma equalize_versions_hides_missing_member :
  let missing := equalize_versions Ex.scenario_plan (Some []) Ex.current_tree in
  let complete :=
    equalize_versions Ex.scenario_plan (Some Ex.scenario_archive)
      Ex.current_tree in
  missing.1 = Finished (EqualizeResult ["b.txt"])
  ∧ complete.1 = missing.1
  ∧ missing.2 !! "a.txt" = Some (File (Some (Ex.bytes_of "old a")))
  ∧ complete.2 !! "a.txt" = Some (File (Some (Ex.bytes_of "new a"))).
Proof. intros missing complete. split_and!; vm_compute; reflexivity. Qed.

(** C6, amended. [equalize_versions] never compares the "copy" entries
    of the plan with the archive: the run, that is its result (the list
    of moved files, or the exception) and the folder it leaves, is the
    one of the plan without its "copy" entries. A "copy" path that the
    archive lacks is not reported. *)
Theorem equalize_versions_ignores_copy_entries plan zip t :
  equalize_versions plan zip t
  = equalize_versions (filter (λ item, status item = "move") plan) zip t.
Proof.
  destruct zip as [z|]; [|done]. unfold equalize_versions, bind.
  destruct (Zip.extractall z t) as [[[]|e] t1]; [|done].
  destruct (Os.makedirs true extra_files_dir t1) as [[[]|e] t2]; [|done].
  by rewrite move_extra_files_filter.
Qed.

(** C9, counterexample. Target and current folder are the same; the
    plan is empty; [equalize_versions] with an empty archive finishes
    and has created the quarantine directory. *)
Lemma equalize_versions_creates_quarantine :
  obind (scan_folder Ex.toy_digest "/srv/target" (Some Ex.target_folder))
    (λ to_version,
       obind (scan_folder Ex.toy_digest "/srv/app" (Some Ex.target_folder))
         (compare_versions to_version))
  = Finished (Comparison [])
  ∧ Ex.target_tree !! extra_files_dir = None
  ∧ equalize_versions [] (Some []) Ex.target_tree
    = (Finished (EqualizeResult []), <[extra_files_dir := Dir]> Ex.target_tree)
  ∧ (equalize_versions [] (Some []) Ex.target_tree).2 !! extra_files_dir
    = Some Dir.
Proof. split_and!; vm_compute; reflexivity. Qed.

(** C9, amended. For equal snapshots the plan is empty; for a plan
    without "copy" entries [create_zip] reports "No files to zip" and
    writes no archive; [equalize_versions] with the empty plan and an
    empty archive moves nothing and changes no file, but it does create
    the directory [ExtraFiles_VersionEqualizer] (and fails if a file
    has that name); without an archive it fails. *)
Theorem identical_trees_scenario :
  (∀ s, compare_versions s s = Finished (Comparison []))
  ∧ (∀ plan to_folder target creatable,
       filter (λ item, status item = "copy") plan = [] →
       create_zip plan to_folder target creatable
       = PackRun (Finished (ZipResult None (Some "No files to zip"))) None)
  ∧ (∀ t : tree,
       equalize_versions [] (Some []) t =
         match t !! extra_files_dir with
         | Some (File _) => (Raised (FileExistsError extra_files_dir), t)
         | _ => (Finished (EqualizeResult []), <[extra_files_dir := Dir]> t)
         end)
  ∧ (∀ t : tree, equalize_versions [] None t = (Raised BadZipFile, t)).
Proof.
  split_and!.
  - apply CompareFacts.compare_versions_same.
  - apply Pack.create_zip_nothing.
  - intros t. unfold equalize_versions, bind. simpl. unfold ret.
    rewrite makedirs_extra_files_dir.
    by destruct (t !! extra_files_dir) as [[c|]|].
  - done.
Qed.

Lemma identical_trees_scenario_witness :
  filter (λ item, status item = "copy") [PlanItem "b.txt" "move"] = []
  ∧ create_zip [PlanItem "b.txt" "move"] "/srv/target" Ex.target_tree Ex.always
    = PackRun (Finished (ZipResult None (Some "No files to zip"))) None.
Proof.
  assert (filter (λ item, status item = "copy") [PlanItem "b.txt" "move"] = [])
    as Hnone by reflexivity.
  split; [exact Hnone|].
  exact (proj1 (proj2 identical_trees_scenario) _ "/srv/target"
           Ex.target_tree Ex.always Hnone).
Defined.

End Equalize.


(** ** compare_versions: order, reversal, empty snapshots, counts *)

Module CompareMore.
Import PyDict PyDictFacts DictOfFiles CompareFacts.
Local Open Scope list_scope.

Local Abbreviation build :=
  (foldl (λ d item, set d (fileName item) (hash item))).

Lemma keys_set d k v :
  keys (set d k v) = if decide (k ∈ keys d) then keys d else keys d ++ [k].
Proof.
  unfold keys. induction d as [|[k0 v0] d IH].
  - destruct (decide (k ∈ [].*1)) as [Hin|_]; [|done].
    by apply elem_of_nil in Hin.
  - cbn [set]. destruct (decide (k0 = k)) as [->|Hne].
    + destruct (decide (k ∈ ((k, v0) :: d).*1)) as [_|Hnot]; [done|].
      exfalso. apply Hnot. left.
    + rewrite fmap_cons, IH. cbn [fst].
      destruct (decide (k ∈ d.*1)) as [Hin|Hnot];
        destruct (decide (k ∈ ((k0, v0) :: d).*1)) as [Hin'|Hnot'];
        try done.
      * exfalso. apply Hnot'. by right.
      * apply elem_of_cons in Hin' as [->|Hin']; done.
Qed.

Lemma set_fresh d k v : k ∉ keys d → set d k v = d ++ [(k, v)].
Proof.
  unfold keys. induction d as [|[k0 v0] d IH]; simpl; [done|].
  rewrite not_elem_of_cons. intros [Hne Hnot].
  rewrite decide_False by done. by rewrite IH.
Qed.

(** The keys of the dictionary are the paths of the records in the order
    of their first occurrence. *)
Lemma keys_build_sublist acc l :
  keys (build acc l) `sublist_of` keys acc ++ (fileName <$> l).
Proof.
  revert acc. induction l as [|r l IH]; intros acc; simpl.
  - by rewrite app_nil_r.
  - etrans; [apply IH|]. rewrite keys_set.
    trans ((keys acc ++ [fileName r]) ++ (fileName <$> l)).
    + apply sublist_app; [|reflexivity].
      case_decide; [by apply sublist_inserts_r|reflexivity].
    + by rewrite <-app_assoc.
Qed.

Lemma keys_files_dict_sublist s :
  keys (files_dict s) `sublist_of` fileName <$> files s.
Proof. apply (keys_build_sublist [] (files s)). Qed.

(** With unique paths the dictionary lists the records as they are. *)
Lemma build_unique acc l :
  NoDup (keys acc ++ (fileName <$> l)) →
  build acc l = acc ++ ((λ r, (fileName r, hash r)) <$> l).
Proof.
  revert acc. induction l as [|r l IH]; intros acc Hnd; simpl.
  - by rewrite app_nil_r.
  - apply NoDup_app in Hnd as (Hacc & Hdisj & Hl).
    apply NoDup_cons in Hl as [Hr Hl].
    assert (fileName r ∉ keys acc) as Hfresh.
    { intros Hin. apply (Hdisj _ Hin). left. }
    rewrite IH.
    + rewrite set_fresh by done. by rewrite <-app_assoc.
    + rewrite keys_set, decide_False by done. rewrite <-app_assoc. simpl.
      apply NoDup_app. split_and!; [done| |by apply NoDup_cons].
      intros k Hk. apply Hdisj. done.
Qed.

Lemma files_dict_unique s :
  unique_paths s → files_dict s = (λ r, (fileName r, hash r)) <$> files s.
Proof. intros Hs. by apply (build_unique [] (files s)). Qed.

Lemma copy_items_names to_files from_files :
  filename <$> copy_items to_files from_files `sublist_of` keys to_files.
Proof.
  unfold copy_items, keys. induction to_files as [|[n h] d IH]; [done|].
  rewrite omap_cons. simpl. destruct (negb _ || _); simpl.
  - by apply sublist_skip.
  - by apply sublist_cons.
Qed.

Lemma move_items_names to_files from_files :
  filename <$> move_items to_files from_files `sublist_of` keys from_files.
Proof.
  unfold move_items. induction (keys from_files) as [|n ks IH]; [done|].
  rewrite omap_cons. destruct (negb _); simpl.
  - by apply sublist_skip.
  - by apply sublist_cons.
Qed.

Lemma copy_items_status to_files from_files :
  Forall (λ e, status e = "copy") (copy_items to_files from_files).
Proof.
  apply Forall_forall. by intros e (_ & _ & ? & _)%elem_of_copy_items.
Qed.

Lemma move_items_status to_files from_files :
  Forall (λ e, status e = "move") (move_items to_files from_files).
Proof.
  apply Forall_forall. by intros e (_ & ? & _)%elem_of_move_items.
Qed.

(** X3. The plan of [compare_versions] lists its "copy" entries first,
    in the order of the target snapshot, and its "move" entries after
    them, in the order of the current snapshot. *)
Theorem compare_versions_order target current :
  ∃ copies moves,
    compare_versions target current = Finished (Comparison (copies ++ moves))
    ∧ Forall (λ e, status e = "copy") copies
    ∧ Forall (λ e, status e = "move") moves
    ∧ filename <$> copies `sublist_of` fileName <$> files target
    ∧ filename <$> moves `sublist_of` fileName <$> files current.
Proof.
  eexists _, _. split; [reflexivity|]. split_and!.
  - apply copy_items_status.
  - apply move_items_status.
  - etrans; [apply copy_items_names|apply keys_files_dict_sublist].
  - etrans; [apply move_items_names|apply keys_files_dict_sublist].
Qed.

Lemma copy_in_plan target current p :
  PlanItem p "copy"
  ∈ copy_items (files_dict target) (files_dict current)
    ++ move_items (files_dict target) (files_dict current)
  ↔ is_Some (last_hash (files target) p)
    ∧ last_hash (files current) p ≠ last_hash (files target) p.
Proof.
  rewrite elem_of_app, elem_of_copy_items, elem_of_move_items.
  rewrite <-!get_files_dict. simpl. split.
  - intros [(h & Hin & _ & Hg)|(_ & ? & _)]; [|done].
    apply get_elem_of in Hin; [|apply NoDup_keys_files_dict].
    rewrite Hin. eauto.
  - intros [[h Hh] Hne]. left. exists h.
    split_and!; [by apply elem_of_get|done|congruence].
Qed.

Lemma move_in_plan target current p :
  PlanItem p "move"
  ∈ copy_items (files_dict target) (files_dict current)
    ++ move_items (files_dict target) (files_dict current)
  ↔ is_Some (last_hash (files current) p)
    ∧ last_hash (files target) p = None.
Proof.
  rewrite elem_of_app, elem_of_copy_items, elem_of_move_items.
  rewrite <-!get_files_dict. simpl. split.
  - intros [(h & _ & ? & _)|(Hin & _ & Hnot)]; [done|]. split.
    + rewrite <-not_eq_None_Some, get_None. auto.
    + by apply get_None.
  - intros [Hs Hn]. right. split_and!; [|done|by apply get_None].
    rewrite <-not_eq_None_Some, get_None in Hs.
    by destruct (decide (p ∈ keys (files_dict current))); [|exfalso; auto].
Qed.

(** X4. Comparing in the other direction: a path that the plan moves away
    is a path that the reverse plan copies, namely one that only the
    current snapshot has; and a path of both snapshots is copied by the
    plan exactly when the reverse plan copies it. *)
Theorem compare_versions_reverse target current :
  ∃ plan back,
    compare_versions target current = Finished (Comparison plan)
    ∧ compare_versions current target = Finished (Comparison back)
    ∧ (∀ p, PlanItem p "move" ∈ plan
            ↔ PlanItem p "copy" ∈ back ∧ ¬ path_in target p)
    ∧ (∀ p, path_in target p → path_in current p →
            (PlanItem p "copy" ∈ plan ↔ PlanItem p "copy" ∈ back))
    ∧ (∀ p, PlanItem p "move" ∉ plan ∨ PlanItem p "move" ∉ back).
Proof.
  eexists _, _. split; [reflexivity|]. split; [reflexivity|]. split_and!.
  - intros p. rewrite move_in_plan, copy_in_plan, path_in_last_hash.
    split.
    + intros [Hs Hn]. rewrite Hn. split_and!; [done| |by intros [? ?]].
      destruct Hs as [h ->]. done.
    + intros [[Hs _] Hn]. split; [done|].
      by destruct (last_hash (files target) p); [exfalso; eauto|].
  - intros p Ht Hc. rewrite !copy_in_plan.
    apply path_in_last_hash in Ht, Hc. naive_solver.
  - intros p. rewrite !move_in_plan.
    destruct (last_hash (files target) p) eqn:Ht.
    + left. by intros [_ ?].
    + right. by intros [[? ?] _].
Qed.

Lemma move_items_nil d :
  move_items [] d = (λ k, PlanItem k "move") <$> keys d.
Proof.
  unfold move_items. induction (keys d) as [|k ks IH]; [done|].
  rewrite omap_cons, IH. done.
Qed.

Lemma copy_items_nil d :
  copy_items d [] = (λ e : string * string, PlanItem e.1 "copy") <$> d.
Proof.
  unfold copy_items. induction d as [|[k v] d IH]; [done|].
  rewrite omap_cons, IH. done.
Qed.

(** X5. The empty snapshots: against an empty target every file of the
    current snapshot is moved, against an empty current snapshot every
    file of the target is copied, one entry for each record in the order
    of the snapshot. *)
Theorem compare_versions_empty (s : snapshot) :
  unique_paths s →
  compare_versions (Snapshot []) s
  = Finished (Comparison ((λ r, PlanItem (fileName r) "move") <$> files s))
  ∧ compare_versions s (Snapshot [])
    = Finished (Comparison ((λ r, PlanItem (fileName r) "copy") <$> files s)).
Proof.
  intros Hs. unfold compare_versions.
  rewrite (files_dict_unique s Hs).
  change (files_dict (Snapshot [])) with (@nil (string * string)).
  rewrite move_items_nil, copy_items_nil. split; do 2 f_equal.
  - unfold copy_items, keys. simpl.
    rewrite <-!list_fmap_compose. by apply list_fmap_ext.
  - unfold move_items, keys. simpl.
    rewrite app_nil_r, <-list_fmap_compose. by apply list_fmap_ext.
Qed.

Lemma compare_versions_empty_witness :
  unique_paths Ex.current_snapshot
  ∧ compare_versions (Snapshot []) Ex.current_snapshot
    = Finished (Comparison [PlanItem "a.txt" "move"; PlanItem "b.txt" "move"])
  ∧ compare_versions Ex.current_snapshot (Snapshot [])
    = Finished (Comparison [PlanItem "a.txt" "copy"; PlanItem "b.txt" "copy"]).
Proof.
  assert (unique_paths Ex.current_snapshot) as Hc
    by (unfold unique_paths; apply (bool_decide_unpack _); vm_compute; exact I).
  split; [exact Hc|]. exact (compare_versions_empty Ex.current_snapshot Hc).
Defined.

Lemma filter_all {A} (P : A → Prop) `{!∀ x, Decision (P x)} (l : list A) :
  Forall P l → filter P l = l.
Proof.
  induction 1 as [|x l Hx _ IH]; [done|].
  by rewrite filter_cons_True, IH.
Qed.

Lemma filter_none {A} (P : A → Prop) `{!∀ x, Decision (P x)} (l : list A) :
  Forall (λ x, ¬ P x) l → filter P l = [].
Proof.
  induction 1 as [|x l Hx _ IH]; [done|].
  by rewrite filter_cons_False, IH.
Qed.

(** X6. The counts that the checker page shows after a comparison add up
    to the length of the plan; there are at most as many files to copy as
    the target snapshot has records, and at most as many to move as the
    current snapshot has. *)
Theorem comparison_counts target current :
  ∃ plan,
    compare_versions target current = Finished (Comparison plan)
    ∧ (Page.copy_count plan + Page.move_count plan)%nat = length plan
    ∧ (Page.copy_count plan ≤ length (files target))%nat
    ∧ (Page.move_count plan ≤ length (files current))%nat.
Proof.
  eexists. split; [reflexivity|].
  pose proof (copy_items_status (files_dict target) (files_dict current))
    as Hc.
  pose proof (move_items_status (files_dict target) (files_dict current))
    as Hm.
  unfold Page.copy_count, Page.move_count. rewrite !filter_app.
  rewrite (filter_all (λ e, status e = "copy") (copy_items _ _)) by done.
  rewrite (filter_all (λ e, status e = "move") (move_items _ _)) by done.
  rewrite (filter_none (λ e, status e = "copy") (move_items _ _)),
    (filter_none (λ e, status e = "move") (copy_items _ _)); cycle 1.
  { eapply Forall_impl; [exact Hc|]. intros e He. by rewrite He. }
  { eapply Forall_impl; [exact Hm|]. intros e He. by rewrite He. }
  rewrite app_nil_r. simpl. split_and!; [by rewrite length_app|..].
  - rewrite <-(length_fmap filename), <-(length_fmap fileName (files target)).
    apply sublist_length.
    etrans; [apply copy_items_names|apply keys_files_dict_sublist].
  - rewrite <-(length_fmap filename), <-(length_fmap fileName (files current)).
    apply sublist_length.
    etrans; [apply move_items_names|apply keys_files_dict_sublist].
Qed.

End CompareMore.


(** ** scan_folder: what it signals, and one digest for a path *)

Module ScanMore.
Import CompareFacts.
Local Open Scope list_scope.

Section Signals.

Variable md5_hexdigest : list byte → string.

(** The records are those of the listed files that could be hashed, in
    the order of the listing. *)
Lemma scan_files_listed f :
  scan_files md5_hexdigest f
  = omap (λ e : string * string,
            scan_file md5_hexdigest (content f) e.1 e.2) (listed f).
Proof.
  unfold scan_files, listed.
  induction (walk f) as [|[root names] w IH]; [done|].
  rewrite !bind_cons, omap_app, IH. f_equal.
  induction names as [|name names IHn]; [done|].
  rewrite fmap_cons, !omap_cons, IHn. done.
Qed.

Lemma scan_emits_texts t total files processed :
  status_texts (scan_emits md5_hexdigest t total files processed)
  = (λ r, "Processing: " +:+ fileName r)
    <$> omap (λ e : string * string, scan_file md5_hexdigest t e.1 e.2) files.
Proof.
  revert processed. induction files as [|[root file] files IH];
    intros processed; [done|].
  rewrite omap_cons. simpl.
  destruct (scan_file md5_hexdigest t root file) as [r|]; [|apply IH].
  unfold status_texts. rewrite !omap_cons, fmap_cons. f_equal. apply IH.
Qed.

Lemma scan_emits_steps t total files processed :
  progress_steps (scan_emits md5_hexdigest t total files processed)
  = (λ k, (k, total))
    <$> seq (S processed)
          (length (omap (λ e : string * string,
                           scan_file md5_hexdigest t e.1 e.2) files)).
Proof.
  revert processed. induction files as [|[root file] files IH];
    intros processed; [done|].
  rewrite omap_cons. simpl.
  destruct (scan_file md5_hexdigest t root file) as [r|]; [|apply IH].
  unfold progress_steps. rewrite !omap_cons. simpl. f_equal. apply IH.
Qed.

Lemma length_omap_le {A B} (g : A → option B) (l : list A) :
  (length (omap g l) ≤ length l)%nat.
Proof.
  induction l as [|x l IH]; [done|].
  rewrite omap_cons. destruct (g x); simpl; lia.
Qed.

(** X1. What [scan_folder] signals for a folder it accepts: first
    ["Scanning files..."], then for each record of the snapshot, in
    order, the progress and ["Processing: "] with the path of the
    record. The [k]-th progress is computed from [k] and the number of
    listed files, which is not zero, so the division is defined; the bar
    ends at 100 only when no listed file was skipped, and a skipped file
    is not signalled at all. *)
Theorem scan_folder_signals folder_path f :
  folder_path ≠ "" →
  ∃ records emits,
    scan_folder md5_hexdigest folder_path (Some f)
    = Finished (Snapshot records)
    ∧ scan_signals md5_hexdigest folder_path (Some f)
      = Status "Scanning files..." :: emits
    ∧ status_texts emits
      = (λ r, "Processing: " +:+ fileName r) <$> records
    ∧ progress_steps emits
      = (λ k, (k, length (listed f))) <$> seq 1 (length records)
    ∧ (length records ≤ length (listed f))%nat.
Proof.
  intros Hpath. eexists _, _. unfold scan_folder, scan_signals.
  rewrite bool_decide_false by done. split_and!; [reflexivity..| | |].
  - rewrite scan_files_listed. apply scan_emits_texts.
  - rewrite scan_files_listed. apply scan_emits_steps.
  - rewrite scan_files_listed. apply length_omap_le.
Qed.

(** A directory and a name in it give one path. *)
Lemma join_inj root name root' name' :
  plain_parent root → valid_name name →
  plain_parent root' → valid_name name' →
  Path.join root name = Path.join root' name' →
  root = root' ∧ name = name'.
Proof.
  intros Hr Hn Hr' Hn' Heq.
  assert (root = root') as <-.
  { rewrite <-(PathFacts.dirname_join root name Hr Hn),
      <-(PathFacts.dirname_join root' name' Hr' Hn'). by rewrite Heq. }
  split; [done|].
  destruct (PathFacts.join_plain root Hr) as [pre Hpre].
  apply PathFacts.chars_inj. apply (app_inv_head pre).
  rewrite <-!Hpre by (by apply PathFacts.starts_with_sep_name).
  by rewrite Heq.
Qed.

Lemma scan_file_name t root file r :
  scan_file md5_hexdigest t root file = Some r →
  fileName r = Path.join root file.
Proof.
  unfold scan_file.
  destruct (t !! Path.join root file) as [[[data|]|]|]; try done.
  by intros [= <-].
Qed.

Lemma scan_names_NoDup t (l : list (string * string)) :
  NoDup l →
  (∀ e, e ∈ l → plain_parent e.1 ∧ valid_name e.2) →
  NoDup (fileName
         <$> omap (λ e : string * string,
                     scan_file md5_hexdigest t e.1 e.2) l).
Proof.
  induction 1 as [|e l Hnotin Hnd IH]; intros Hwf; [apply NoDup_nil_2|].
  assert (∀ e', e' ∈ l → plain_parent e'.1 ∧ valid_name e'.2) as Hwf'
    by (intros e' He'; apply Hwf; by right).
  rewrite omap_cons.
  destruct (scan_file md5_hexdigest t e.1 e.2) as [r|] eqn:Hr; [|by apply IH].
  rewrite fmap_cons. apply NoDup_cons. split; [|by apply IH].
  intros Hin. apply list_elem_of_fmap in Hin as (r' & Hname & Hin).
  apply list_elem_of_omap in Hin as (e' & He' & Hr').
  apply scan_file_name in Hr, Hr'. rewrite Hr, Hr' in Hname.
  destruct (Hwf e) as [Hp Hv]; [left|].
  destruct (Hwf' e' He') as [Hp' Hv'].
  destruct (join_inj _ _ _ _ Hp Hv Hp' Hv' Hname) as [H1 H2].
  apply Hnotin. destruct e, e'; simpl in *. by subst.
Qed.

(** X2. [scan_folder] establishes the invariant of a snapshot: when the
    walk lists every file once, each under a directory that is the
    folder itself or a path without a trailing separator and with a
    proper name, as [os.walk] does, no two records of the snapshot share a
    path, whichever files were skipped. *)
Theorem scan_folder_unique_paths folder_path f :
  folder_path ≠ "" →
  (∀ root names, (root, names) ∈ walk f →
                 plain_parent root ∧ Forall valid_name names) →
  NoDup (listed f) →
  ∃ s, scan_folder md5_hexdigest folder_path (Some f) = Finished s
       ∧ unique_paths s.
Proof.
  intros Hpath Hwalk Hnd. eexists. split.
  - unfold scan_folder. by rewrite bool_decide_false.
  - unfold unique_paths. simpl. rewrite scan_files_listed.
    apply scan_names_NoDup; [done|].
    intros [root file] Hin. unfold listed in Hin.
    apply list_elem_of_bind in Hin as ([root' names] & Hin & Hw).
    apply list_elem_of_fmap in Hin as (file' & [= -> ->] & Hfile).
    destruct (Hwalk _ _ Hw) as [Hp Hv]. split; [done|].
    by apply (proj1 (Forall_forall _ _) Hv).
Qed.

End Signals.

Lemma scan_folder_signals_witness :
  "/srv/app" ≠ ""
  ∧ ∃ records emits,
      scan_folder Ex.toy_digest "/srv/app" (Some Ex.folder_with_locked_file)
      = Finished (Snapshot records)
      ∧ scan_signals Ex.toy_digest "/srv/app"
          (Some Ex.folder_with_locked_file)
        = Status "Scanning files..." :: emits
      ∧ status_texts emits
        = (λ r, "Processing: " +:+ fileName r) <$> records
      ∧ progress_steps emits
        = (λ k, (k, length (listed Ex.folder_with_locked_file)))
          <$> seq 1 (length records)
      ∧ (length records ≤ length (listed Ex.folder_with_locked_file))%nat.
Proof.
  assert ("/srv/app" ≠ "") as Hpath by discriminate.
  split; [exact Hpath|].
  exact (scan_folder_signals Ex.toy_digest "/srv/app"
           Ex.folder_with_locked_file Hpath).
Defined.

Lemma scan_folder_unique_paths_witness :
  "/srv/app" ≠ ""
  ∧ (∀ root names, (root, names) ∈ walk Ex.folder_with_locked_file →
                   plain_parent root ∧ Forall valid_name names)
  ∧ NoDup (listed Ex.folder_with_locked_file)
  ∧ ∃ s, scan_folder Ex.toy_digest "/srv/app"
           (Some Ex.folder_with_locked_file) = Finished s
         ∧ unique_paths s.
Proof.
  assert ("/srv/app" ≠ "") as Hpath by discriminate.
  assert (∀ n, n ∈ ["a.txt"; "locked.bin"; "c.txt"] → valid_name n) as Hname.
  { intros n Hn. repeat apply elem_of_cons in Hn as [->|Hn];
      [..|by apply elem_of_nil in Hn];
      (split_and!; [done..|]; simpl;
       repeat (apply Forall_cons; split; [done|]); apply Forall_nil_2). }
  assert (∀ root names, (root, names) ∈ walk Ex.folder_with_locked_file →
                        plain_parent root ∧ Forall valid_name names) as Hwalk.
  { intros root names Hin. simpl in Hin.
    repeat apply elem_of_cons in Hin as [[= -> ->]|Hin];
      [..|by apply elem_of_nil in Hin].
    - split; [by left|]. apply Forall_forall. intros n Hn. apply Hname.
      rewrite !elem_of_cons in *. naive_solver.
    - split; [by right; right|]. apply Forall_forall. intros n Hn.
      apply Hname. rewrite !elem_of_cons in *. naive_solver. }
  assert (NoDup (listed Ex.folder_with_locked_file)) as Hnd
    by (apply (bool_decide_unpack _); vm_compute; exact I).
  split; [exact Hpath|]. split; [exact Hwalk|]. split; [exact Hnd|].
  exact (scan_folder_unique_paths Ex.toy_digest "/srv/app"
           Ex.folder_with_locked_file Hpath Hwalk Hnd).
Defined.

End ScanMore.


(** ** create_zip: what is packaged, what is reported, what is signalled *)

Module PackMore.
Import CompareFacts.
Local Open Scope list_scope.

(** No item is a file that cannot be read. *)
Local Abbreviation readable target :=
  (Forall (λ i : plan_item, target !! filename i ≠ Some (File None))).

Lemma write_all_readable target items :
  (Zip.write_all target items).2 = None ↔ readable target items.
Proof.
  induction items as [|item items IH]; simpl; [by split; auto|].
  rewrite Forall_cons, <-IH.
  destruct (target !! filename item) as [[[data|]|]|] eqn:Ht;
    try destruct (Zip.write_all target items) as [z e]; simpl;
    naive_solver.
Qed.


Lemma write_all_member target items item :
  readable target items → item ∈ items →
  match target !! filename item with
  | Some (File (Some data)) =>
      (filename item, ZFile data) ∈ (Zip.write_all target items).1
  | Some Dir => (filename item, ZDir) ∈ (Zip.write_all target items).1
  | Some (File None) => False
  | None => True
  end.
Proof.
  induction items as [|i items IH]; [by intros _ ?%elem_of_nil|].
  intros [Hi Hok]%Forall_cons [->|Hin]%elem_of_cons.
  - simpl. destruct (target !! filename i) as [[[data|]|]|] eqn:Ht;
      try destruct (Zip.write_all target items) as [z e]; simpl;
      try done; left.
  - specialize (IH Hok Hin). simpl.
    destruct (target !! filename i) as [[[d|]|]|] eqn:Ht;
      try destruct (Zip.write_all target items) as [z e]; simpl in *;
      try done;
      destruct (target !! filename item) as [[[data|]|]|]; try done;
      by right.
Qed.


Lemma zip_emits_texts target items i n :
  readable target items →
  status_texts (zip_emits target items i n)
  = (λ item, "Adding to ZIP: " +:+ filename item) <$> items.
Proof.
  intros Hok. revert i. induction Hok as [|item items Hi _ IH]; intros i;
    [done|].
  simpl. unfold status_texts in *.
  destruct (target !! filename item) as [[[d|]|]|] eqn:Ht; try done;
    rewrite !omap_cons; simpl; f_equal; apply IH.
Qed.

Lemma zip_emits_steps target items i n :
  readable target items →
  progress_steps (zip_emits target items i n)
  = (λ k, (k, n)) <$> seq (S i) (length items).
Proof.
  intros Hok. revert i. induction Hok as [|item items Hi _ IH]; intros i;
    [done|].
  simpl. unfold progress_steps in *.
  destruct (target !! filename item) as [[[d|]|]|] eqn:Ht; try done;
    rewrite !omap_cons; simpl; f_equal; apply IH.
Qed.


Lemma join_zip_ne head : Path.join head "version_update.zip" ≠ "".
Proof.
  unfold Path.join. simpl.
  destruct (bool_decide (head = "") || Path.ends_with_sep head);
    by destruct head.
Qed.

(** A finished run that names an archive wrote it, from a readable
    list of "copy" entries. *)
Lemma create_zip_finished plan to_folder target creatable zp :
  pack_outcome (create_zip plan to_folder target creatable)
  = Finished (ZipResult (Some zp) None) →
  let copies := filter (λ item, status item = "copy") plan in
  zp = Path.join (Path.dirname to_folder) "version_update.zip"
  ∧ creatable zp = true
  ∧ readable target copies
  ∧ pack_written (create_zip plan to_folder target creatable)
    = Some (zp, (Zip.write_all target copies).1).
Proof.
  intros Hrun copies. revert Hrun. unfold create_zip. fold copies.
  case_bool_decide; simpl; [done|].
  destruct (creatable _) eqn:Hc; simpl; [|done].
  destruct (Zip.write_all target copies) as [z [e|]] eqn:Hw; simpl; [done|].
  intros [= <-]. split_and!; try done.
  apply write_all_readable. by rewrite Hw.
Qed.

(** The "copy" entry of the scenario has a relative name. *)
Lemma scenario_copies_relative p :
  PlanItem p "copy" ∈ Ex.scenario_plan → relative_name p.
Proof.
  intros [[= ->]|[?|?%elem_of_nil]%elem_of_cons]%elem_of_cons; done.
Qed.

(** The stored names of the members follow the items. *)
Lemma write_all_stored target items :
  stored_name <$> (Zip.write_all target items).1
  `sublist_of` stored_as target <$> (filename <$> items).
Proof.
  induction items as [|item items IH]; simpl; [done|].
  unfold stored_as at 1.
  destruct (target !! filename item) as [[[data|]|]|] eqn:Ht;
    try destruct (Zip.write_all target items) as [z e]; simpl in *.
  - by apply sublist_skip.
  - apply sublist_nil_l.
  - by apply sublist_skip.
  - by apply sublist_cons.
Qed.

(** X7. For a plan whose "copy" entries are canonical paths, none of
    them named like the archive: when [create_zip] finishes with an archive, the names stored in the
    archive follow the order of the "copy" entries of the plan, each the
    path of an entry, followed by a separator when it is a directory of
    the target folder; every "copy" entry whose path is a file or a
    directory of the target folder is a member with the bytes of that
    file, all of them could be read, and an entry whose path is not in
    the target folder was skipped without notice. *)
Theorem create_zip_complete plan to_folder target creatable zp :
  (∀ p, PlanItem p "copy" ∈ plan → packable p) →
  pack_outcome (create_zip plan to_folder target creatable)
  = Finished (ZipResult (Some zp) None) →
  ∃ z,
    pack_written (create_zip plan to_folder target creatable) = Some (zp, z)
    ∧ stored_name <$> z
      `sublist_of`
      stored_as target
      <$> (filename <$> filter (λ item, status item = "copy") plan)
    ∧ ∀ p, PlanItem p "copy" ∈ plan →
           match target !! p with
           | Some (File (Some data)) => (p, ZFile data) ∈ z
           | Some Dir => (p, ZDir) ∈ z
           | Some (File None) => False
           | None => ∀ m, (p, m) ∉ z
           end.
Proof.
  intros _ (_ & _ & Hok & Hw)%create_zip_finished.
  eexists. split; [exact Hw|]. split; [apply write_all_stored|].
  intros p Hp.
  assert (PlanItem p "copy" ∈ filter (λ item, status item = "copy") plan)
    as Hin by (by apply list_elem_of_filter).
  pose proof (write_all_member target _ _ Hok Hin) as Hm. simpl in Hm.
  destruct (target !! p) as [[[data|]|]|] eqn:Ht; try done.
  intros m [_ Hnode]%Pack.elem_of_write_all. by rewrite Ht in Hnode.
Qed.

Lemma create_zip_complete_witness :
  (∀ p, PlanItem p "copy" ∈ Ex.scenario_plan → packable p)
  ∧ pack_outcome
      (create_zip Ex.scenario_plan "/srv/app" Ex.target_tree Ex.always)
    = Finished (ZipResult (Some "/srv/version_update.zip") None)
  ∧ ∃ z,
      pack_written
        (create_zip Ex.scenario_plan "/srv/app" Ex.target_tree Ex.always)
      = Some ("/srv/version_update.zip", z)
      ∧ stored_name <$> z
        `sublist_of`
        stored_as Ex.target_tree
        <$> (filename
             <$> filter (λ item, status item = "copy") Ex.scenario_plan)
      ∧ ∀ p, PlanItem p "copy" ∈ Ex.scenario_plan →
             match Ex.target_tree !! p with
             | Some (File (Some data)) => (p, ZFile data) ∈ z
             | Some Dir => (p, ZDir) ∈ z
             | Some (File None) => False
             | None => ∀ m, (p, m) ∉ z
             end.
Proof.
  assert (pack_outcome
            (create_zip Ex.scenario_plan "/srv/app" Ex.target_tree Ex.always)
          = Finished (ZipResult (Some "/srv/version_update.zip") None))
    as Hrun by (vm_compute; reflexivity).
  split; [exact Pack.scenario_copies_packable|]. split; [exact Hrun|].
  exact (create_zip_complete _ _ _ _ _ Pack.scenario_copies_packable Hrun).
Defined.



(** X9. What the page shows for a result of [create_zip]: either the
    plan has no "copy" entry, no archive is written and the dialog says
    ["No files to zip"], or the plan has one, and the dialog names the
    archive that was written. The dialog's own default text is never
    shown. *)
Theorem zip_dialog_of_result plan to_folder target creatable res :
  pack_outcome (create_zip plan to_folder target creatable) = Finished res →
  let run := create_zip plan to_folder target creatable in
  let zp := Path.join (Path.dirname to_folder) "version_update.zip" in
  (filter (λ item, status item = "copy") plan = []
   ∧ pack_written run = None
   ∧ Page.on_zip_created res = Page.NoFilesToPackage "No files to zip")
  ∨ (filter (λ item, status item = "copy") plan ≠ []
     ∧ (∃ z, pack_written run = Some (zp, z))
     ∧ Page.on_zip_created res = Page.ZipCreated zp).
Proof.
  intros Hrun run zp. subst run. revert Hrun. unfold create_zip. fold zp.
  case_bool_decide as Hnil; simpl.
  - intros [= <-]. by left.
  - destruct (creatable zp); simpl; [|done].
    destruct (Zip.write_all _ _) as [z [e|]]; simpl; [done|].
    intros [= <-]. right. split_and!; [done|by eexists|].
    unfold Page.on_zip_created. simpl.
    rewrite bool_decide_false; [done|]. apply join_zip_ne.
Qed.

Lemma zip_dialog_of_result_witness :
  pack_outcome (create_zip Ex.scenario_plan "/srv/app" Ex.target_tree Ex.always)
  = Finished (ZipResult (Some "/srv/version_update.zip") None)
  ∧ Page.on_zip_created (ZipResult (Some "/srv/version_update.zip") None)
    = Page.ZipCreated "/srv/version_update.zip".
Proof.
  assert (pack_outcome
            (create_zip Ex.scenario_plan "/srv/app" Ex.target_tree Ex.always)
          = Finished (ZipResult (Some "/srv/version_update.zip") None))
    as Hrun by (vm_compute; reflexivity).
  split; [exact Hrun|].
  destruct (zip_dialog_of_result _ _ _ _ _ Hrun) as [(Hnil & _)|(_ & _ & Hd)].
  - discriminate Hnil.
  - exact Hd.
Defined.



(** X11. The signals of a run of [create_zip] that finishes with an
    archive, for a plan whose "copy" entries have relative names: one progress and one ["Adding to ZIP: "] for every "copy"
    entry of the plan, in order, also for the entries that were skipped
    because their file is missing; the [k]-th progress is computed from
    [k] and the number of "copy" entries, so the bar ends at 100. *)
Theorem create_zip_signals_finished plan to_folder target creatable zp :
  (∀ p, PlanItem p "copy" ∈ plan → relative_name p) →
  pack_outcome (create_zip plan to_folder target creatable)
  = Finished (ZipResult (Some zp) None) →
  let copies := filter (λ item, status item = "copy") plan in
  let signals := create_zip_signals plan to_folder target creatable in
  status_texts signals
  = (λ item, "Adding to ZIP: " +:+ filename item) <$> copies
  ∧ progress_steps signals
    = (λ k, (k, length copies)) <$> seq 1 (length copies).
Proof.
  intros _ Hrun copies signals.
  destruct (create_zip_finished _ _ _ _ _ Hrun) as (-> & Hc & Hok & Hw).
  fold copies in Hok, Hw.
  assert (copies ≠ []) as Hne.
  { intros Hnil. revert Hw. unfold create_zip. fold copies.
    by rewrite bool_decide_true. }
  subst signals. unfold create_zip_signals. fold copies.
  rewrite bool_decide_false, Hc by done. simpl. split.
  - by apply zip_emits_texts.
  - by apply zip_emits_steps.
Qed.

Lemma create_zip_signals_finished_witness :
  (∀ p, PlanItem p "copy" ∈ Ex.scenario_plan → relative_name p)
  ∧ pack_outcome
      (create_zip Ex.scenario_plan "/srv/app" Ex.target_tree Ex.always)
    = Finished (ZipResult (Some "/srv/version_update.zip") None)
  ∧ status_texts
      (create_zip_signals Ex.scenario_plan "/srv/app" Ex.target_tree Ex.always)
    = ["Adding to ZIP: a.txt"]
  ∧ progress_steps
      (create_zip_signals Ex.scenario_plan "/srv/app" Ex.target_tree Ex.always)
    = [(1, 1)].
Proof.
  assert (pack_outcome
            (create_zip Ex.scenario_plan "/srv/app" Ex.target_tree Ex.always)
          = Finished (ZipResult (Some "/srv/version_update.zip") None))
    as Hrun by (vm_compute; reflexivity).
  split; [exact scenario_copies_relative|]. split; [exact Hrun|].
  exact (create_zip_signals_finished _ _ _ _ _ scenario_copies_relative Hrun).
Defined.

End PackMore.


(** ** equalize_versions: what a finished run installed, left and reported *)

Module EqualizeMore.
Local Open Scope list_scope.

Section Report.

(** The paths of the "move" entries of the plan, as in the loop
    lemmas. *)
Variable M : string → Prop.
Hypothesis M_names : ∀ q, M q → relative_name q ∧ ¬ in_quarantine q.
Hypothesis M_flat : ∀ q q', M q → M q' → ¬ ancestor q q'.

(** [moved_files] grows by the paths of the "move" entries whose source
    is in the folder, in the order of the plan. *)
Lemma move_extra_files_report rest moved (t : tree) r t' :
  (∀ q, PlanItem q "move" ∈ rest → M q) →
  (∀ q, M q → t !! q ≠ Some Dir
              ∧ t !! Path.join extra_files_dir q ≠ Some Dir) →
  move_extra_files rest moved t = (Finished r, t') →
  ∃ more,
    r = moved ++ more
    ∧ more `sublist_of`
        filename <$> filter (λ item, status item = "move") rest
    ∧ ∀ q, q ∈ more ↔ PlanItem q "move" ∈ rest ∧ is_Some (t !! q).
Proof.
  revert moved t. induction rest as [|item rest IH];
    intros moved t Hrest HJ Hrun.
  - injection Hrun as <- _. exists []. rewrite app_nil_r.
    split_and!; [done..|]. intros q. split.
    + by intros ?%elem_of_nil.
    + by intros [?%elem_of_nil _].
  - assert (∀ q, PlanItem q "move" ∈ rest → M q) as Hrest'
      by (intros q Hq; apply Hrest; by right).
    simpl in Hrun. case_bool_decide as Hst; cycle 1.
    { (* not a "move" entry *)
      destruct (IH _ _ Hrest' HJ Hrun) as (more & -> & Hsub & Hmore).
      exists more. rewrite filter_cons_False by done.
      split_and!; [done..|]. intros q. rewrite Hmore, elem_of_cons.
      split; [by intros [? ?]; auto|].
      intros [[<-|?] ?]; [by simpl in Hst|done]. }
    destruct item as [q0 st]; simpl in *. subst st.
    rewrite filter_cons_True by done.
    assert (M q0) as Hq0 by (apply Hrest; left).
    destruct (M_names q0 Hq0) as [Hq0rel Hq0out].
    unfold bind, gets in Hrun.
    destruct (path_exists t q0) eqn:He; cycle 1.
    { (* the source is not there *)
      destruct (IH _ _ Hrest' HJ Hrun) as (more & -> & Hsub & Hmore).
      exists more. split_and!; [done|by apply sublist_cons|].
      intros q. rewrite Hmore, elem_of_cons.
      split; [by intros [? ?]; auto|].
      intros [[[= ->]|?] Hsome]; [|done]. exfalso.
      apply not_true_iff_false in He. apply He.
      apply FsFacts.path_exists_iff. by right. }
    apply FsFacts.path_exists_iff in He as He'.
    destruct He' as [?|Hsome0]; [by destruct Hq0rel|].
    destruct (Os.makedirs true (Path.dirname (Path.join extra_files_dir q0)) t)
      as [[[]|e] ta] eqn:Hmk; [|done].
    destruct (Shutil.move q0 (Path.join extra_files_dir q0) ta)
      as [[[]|e] tb] eqn:Hmv; [|done].
    destruct (Equalize.move_step M M_names M_flat q0 t ta tb Hq0 HJ He Hmk Hmv)
      as (HJ' & _ & Hgone & _ & Hout).
    destruct (IH _ _ Hrest' HJ' Hrun) as (more & -> & Hsub & Hmore).
    exists (q0 :: more). split_and!.
    + by rewrite <-app_assoc.
    + by apply sublist_skip.
    + intros q. rewrite !elem_of_cons, Hmore. split.
      * intros [->|[Hq Hsome]]; [by auto|].
        assert (q ≠ q0) as Hne.
        { intros ->. rewrite Hgone in Hsome. by destruct Hsome. }
        rewrite Hout in Hsome; [by auto| |done].
        apply (M_names q). by apply Hrest'.
      * intros [[[= ->]|Hq] Hsome]; [by left|].
        destruct (decide (q = q0)) as [->|Hne]; [by left|right].
        split; [done|]. rewrite Hout; [done| |done].
        apply (M_names q). by apply Hrest'.
Qed.

End Report.

(** A finished run step by step, for a plan and an archive that keep
    clear of the quarantine directory: the archive was extracted, the
    quarantine directory made, and the loop ran on that folder, where the
    sources of the "move" entries and their places in quarantine still
    were as at the start; outside the quarantine directory the loop only
    removed those sources. *)
Lemma equalize_versions_anatomy plan z (t : tree) r t' :
  clear_of_quarantine plan z t →
  equalize_versions plan (Some z) t = (Finished r, t') →
  ∃ t1,
    Zip.extractall z t = (Finished tt, t1)
    ∧ move_extra_files plan [] (<[extra_files_dir := Dir]> t1)
      = (Finished (moved_files r), t')
    ∧ (∀ q, PlanItem q "move" ∈ plan →
            <[extra_files_dir := Dir]> t1 !! q = t !! q
            ∧ <[extra_files_dir := Dir]> t1 !! Path.join extra_files_dir q
              = t !! Path.join extra_files_dir q)
    ∧ (∀ k, ¬ in_quarantine k → (∀ q, PlanItem q "move" ∈ plan → q ≠ k) →
            t' !! k = t1 !! k)
    ∧ (∀ q, PlanItem q "move" ∈ plan → t' !! q = None)
    ∧ t' !! extra_files_dir = Some Dir.
Proof.
  intros Hclear Hrun.
  unfold equalize_versions, bind in Hrun.
  destruct (Zip.extractall z t) as [[[]|e] t1] eqn:Hx; [|done].
  destruct (Os.makedirs true extra_files_dir t1) as [[[]|e] t2] eqn:Hmk;
    [|done].
  destruct (move_extra_files plan [] t2) as [[moved|e] t3] eqn:Hloop;
    [|done].
  injection Hrun as <- <-. simpl.
  destruct (Equalize.equalize_versions_before_loop plan z t t1 t2 Hclear Hx Hmk)
    as [-> Hsame].
  destruct Hclear as (Hmoves & Hflat & Hz & Hsep).
  destruct (Equalize.move_extra_files_frame (λ q, PlanItem q "move" ∈ plan))
    with (rest := plan) (moved := @nil string)
         (t := <[extra_files_dir := Dir]> t1) (r := moved) (t' := t3)
    as (_ & Hout & Hgone & Hdir); try done.
  { intros q Hq. by destruct (Hmoves q Hq) as (? & ? & _). }
  { intros q Hq. destruct (Hsame q Hq) as [-> ->].
    by destruct (Hmoves q Hq) as (_ & _ & ? & ?). }
  exists t1. split_and!; try done.
  - intros k Hk Hne. rewrite Hout by done. apply lookup_insert_ne.
    intros <-. apply Hk. by left.
  - apply Hdir, lookup_insert_eq.
Qed.






(** X17. For canonical paths and outside collisions with the quarantine
    directory, the report of a finished run is exact: [moved_files] lists, in the order of the
    plan, the paths of the "move" entries that were in the folder, and
    the page says that there were no extra files exactly when none of
    them was there. *)
Theorem equalize_versions_report plan z (t : tree) r t' :
  canonical_names plan z →
  clear_of_quarantine plan z t →
  equalize_versions plan (Some z) t = (Finished r, t') →
  moved_files r
    `sublist_of` filename <$> filter (λ item, status item = "move") plan
  ∧ (∀ q, q ∈ moved_files r ↔ PlanItem q "move" ∈ plan ∧ is_Some (t !! q))
  ∧ (Page.on_equalization_finished r = Page.NoExtraFiles
     ↔ ∀ q, PlanItem q "move" ∈ plan → t !! q = None).
Proof.
  intros _ Hclear Hrun.
  destruct (equalize_versions_anatomy plan z t r t' Hclear Hrun)
    as (t1 & _ & Hloop & Hsame & _).
  destruct Hclear as (Hmoves & Hflat & _).
  destruct (move_extra_files_report (λ q, PlanItem q "move" ∈ plan))
    with (rest := plan) (moved := @nil string)
         (t := <[extra_files_dir := Dir]> t1) (r := moved_files r) (t' := t')
    as (more & Hr & Hsub & Hmore); try done.
  { intros q Hq. by destruct (Hmoves q Hq) as (? & ? & _). }
  { intros q Hq. destruct (Hsame q Hq) as [-> ->].
    by destruct (Hmoves q Hq) as (_ & _ & ? & ?). }
  simpl in Hr. subst more.
  assert (∀ q, q ∈ moved_files r
               ↔ PlanItem q "move" ∈ plan ∧ is_Some (t !! q)) as Hexact.
  { intros q. rewrite Hmore. split; intros [Hq Hsome]; (split; [done|]);
      by destruct (Hsame q Hq) as [Heq _]; rewrite Heq in *. }
  split_and!; [done..|].
  unfold Page.on_equalization_finished. split.
  - destruct (moved_files r) as [|q0 moved] eqn:Hm; [|done].
    intros _ q Hq. destruct (t !! q) eqn:Ht; [|done].
    assert (q ∈ @nil string) as Hin by (apply Hexact; eauto).
    by apply elem_of_nil in Hin.
  - intros Hnone. destruct (moved_files r) as [|q0 moved] eqn:Hm; [done|].
    assert (q0 ∈ q0 :: moved) as Hin by left.
    apply Hexact in Hin as [Hq [v Hv]]. rewrite (Hnone q0 Hq) in Hv. done.
Qed.

Lemma equalize_versions_report_witness :
  let run :=
    equalize_versions Ex.scenario_plan (Some Ex.scenario_archive)
      Ex.current_tree in
  let r := EqualizeResult ["b.txt"] in
  canonical_names Ex.scenario_plan Ex.scenario_archive
  ∧ clear_of_quarantine Ex.scenario_plan Ex.scenario_archive Ex.current_tree
  ∧ run = (Finished r, run.2)
  ∧ moved_files r
      `sublist_of`
      (filename <$> filter (λ item, status item = "move") Ex.scenario_plan)
  ∧ (∀ q, q ∈ moved_files r
          ↔ PlanItem q "move" ∈ Ex.scenario_plan
            ∧ is_Some (Ex.current_tree !! q))
  ∧ (Page.on_equalization_finished r = Page.NoExtraFiles
     ↔ ∀ q, PlanItem q "move" ∈ Ex.scenario_plan → Ex.current_tree !! q = None).
Proof.
  intros run r.
  assert (run = (Finished r, run.2)) as Hrun by (vm_compute; reflexivity).
  split; [exact Equalize.scenario_canonical_names|].
  split; [exact Equalize.scenario_clear_of_quarantine|]. split; [exact Hrun|].
  exact (equalize_versions_report _ _ _ _ _
           Equalize.scenario_canonical_names
           Equalize.scenario_clear_of_quarantine Hrun).
Defined.

(** X18. When the name of the quarantine directory is taken by a file,
    [equalize_versions] raises [FileExistsError] after it has extracted
    the archive: the folder is left as the extraction made it, with the
    files of the archive written over the old ones, and nothing is
    moved. *)
Theorem equalize_versions_quarantine_taken plan z (t t1 : tree) c :
  (∀ m, m ∈ z → relative_name m.1 ∧ ¬ in_quarantine m.1) →
  t !! extra_files_dir = Some (File c) →
  Zip.extractall z t = (Finished tt, t1) →
  equalize_versions plan (Some z) t
  = (Raised (FileExistsError extra_files_dir), t1).
Proof.
  intros Hz Hfile Hx. unfold equalize_versions, bind. rewrite Hx.
  rewrite Equalize.makedirs_extra_files_dir.
  assert (t1 !! extra_files_dir = Some (File c)) as ->; [|done].
  replace t1 with (Zip.extractall z t).2 by (by rewrite Hx).
  rewrite FsFacts.extractall_untouched; [done|].
  intros m Hm. destruct (Hz m Hm) as [Hrel Hout]. split_and!; [done|..].
  - intros Heq. apply Hout. by left.
  - intros Hanc. apply Hout. by right.
Qed.

Lemma equalize_versions_quarantine_taken_witness :
  let t : tree :=
    list_to_map [("a.txt", File (Some (Ex.bytes_of "old a")));
                 ("b.txt", File (Some (Ex.bytes_of "old b")));
                 ("ExtraFiles_VersionEqualizer", File (Some []))] in
  let t1 : tree :=
    list_to_map [("a.txt", File (Some (Ex.bytes_of "new a")));
                 ("b.txt", File (Some (Ex.bytes_of "old b")));
                 ("ExtraFiles_VersionEqualizer", File (Some []))] in
  (∀ m, m ∈ Ex.scenario_archive → relative_name m.1 ∧ ¬ in_quarantine m.1)
  ∧ t !! extra_files_dir = Some (File (Some []))
  ∧ Zip.extractall Ex.scenario_archive t = (Finished tt, t1)
  ∧ equalize_versions Ex.scenario_plan (Some Ex.scenario_archive) t
    = (Raised (FileExistsError extra_files_dir), t1).
Proof.
  intros t t1.
  assert (∀ m, m ∈ Ex.scenario_archive →
               relative_name m.1 ∧ ¬ in_quarantine m.1) as Hz
    by apply Equalize.scenario_clear_of_quarantine.
  assert (t !! extra_files_dir = Some (File (Some []))) as Hfile
    by (vm_compute; reflexivity).
  assert (Zip.extractall Ex.scenario_archive t = (Finished tt, t1)) as Hx
    by (vm_compute; reflexivity).
  split; [exact Hz|]. split; [exact Hfile|]. split; [exact Hx|].
  exact (equalize_versions_quarantine_taken Ex.scenario_plan _ _ _ _
           Hz Hfile Hx).
Defined.

End EqualizeMore.


(** ** The four steps in a row *)

Module Pipeline.
Import PyDictFacts DictOfFiles.
Local Open Scope list_scope.

Section FourSteps.

Variable md5_hexdigest : list byte → string.





End FourSteps.






End Pipeline.
